(** * whisperx/vad.py: segment construction pipeline

    A shallow embedding of [VADSegmentPipeline.merge_chunks], [Binarize] and
    [merge_vad], and the properties of the specification checked on it.

    Python floats are modelled as exact rationals ([Q]): every property
    below is about comparisons, list structure and control flow, none is
    about rounding.  [float('inf')] is a constructor of its own. *)

From Stdlib Require Import String List QArith Qminmax Lqa Lia Bool Arith.
From Stdlib Require Import Sorted Permutation.
Import ListNotations.

Open Scope Q_scope.

(** ** Python values and exceptions *)

Inductive exn : Type :=
| AssertionError
| IndexError
| NameError
| ValueError
| NotImplementedError.

Inductive result (A : Type) : Type :=
| Ok (a : A)
| Raise (e : exn).

Arguments Ok {A} a.
Arguments Raise {A} e.

Definition bind {A B : Type} (m : result A) (k : A -> result B) : result B :=
  match m with
  | Ok a => k a
  | Raise e => Raise e
  end.

Notation "x <- m ;; k" := (bind m (fun x => k))
  (at level 61, m at next level, right associativity).

(** [x > y] and [x < y] on floats, as booleans. *)
Definition Qgtb (x y : Q) : bool := negb (Qle_bool x y).
Definition Qltb (x y : Q) : bool := negb (Qle_bool y x).

(** Truth value of a float: [0.0] is falsy. *)
Definition truthy (x : Q) : bool := negb (Qeq_bool x 0).

(** ** Segments *)

(** Modelled from the spec: [whisperx.diarize.Segment], the class imported at
    line 8 (its file is not under src/): a start, an end and a speaker label,
    read back as [seg.start], [seg.end] and [seg.speaker]. *)
Record Segment : Type := mkSegment {
  start : Q;
  end_ : Q;
  speaker : string
}.

(** ** ChunkPacker: [VADSegmentPipeline.merge_chunks] *)

(** The dict literal appended to [merged_segments] (lines 105-109 and
    117-121): its keys are "start", "end" and "segments". *)
Record chunk : Type := mkChunk {
  c_start : Q;
  c_end : Q;
  c_segments : list (Q * Q)
}.

Inductive pyval : Type :=
| PyFloat (x : Q)
| PyPairs (l : list (Q * Q))
| PyLabels (l : list string).

(** A Python dict with string keys, in insertion order. *)
Definition pydict : Type := list (string * pyval).

Fixpoint dict_get (d : pydict) (key : string) : option pyval :=
  match d with
  | [] => None
  | (k, v) :: d' => if String.eqb k key then Some v else dict_get d' key
  end.

Definition dict_keys (d : pydict) : list string := map fst d.

Definition chunk_items (c : chunk) : pydict :=
  [ ("start"%string, PyFloat (c_start c));
    ("end"%string, PyFloat (c_end c));
    ("segments"%string, PyPairs (c_segments c)) ].

(** The local variables of [merge_chunks].  [seg_idxs] and [speaker_idxs]
    are rebound to fresh lists when a chunk is closed (lines 111-112), so a
    list stored in an emitted dict is never appended to afterwards: lists are
    values here. *)
Record pack_state : Type := mkPack {
  curr_start : Q;
  curr_end : Q;
  seg_idxs : list (Q * Q);
  speaker_idxs : list string;
  merged_segments : list chunk
}.

(** Lines 104-112: close the chunk in progress. *)
Definition close_chunk (chunk_size : Q) (st : pack_state) (seg : Segment) : pack_state :=
  if Qgtb (end_ seg - curr_start st) chunk_size && Qgtb (curr_end st - curr_start st) 0
  then {| curr_start := start seg;
          curr_end := curr_end st;
          seg_idxs := [];
          speaker_idxs := [];
          merged_segments :=
            merged_segments st ++
              [ {| c_start := curr_start st;
                   c_end := curr_end st;
                   c_segments := seg_idxs st |} ] |}
  else st.

(** Lines 113-115: add [seg] to the chunk in progress. *)
Definition extend_chunk (st : pack_state) (seg : Segment) : pack_state :=
  {| curr_start := curr_start st;
     curr_end := end_ seg;
     seg_idxs := seg_idxs st ++ [(start seg, end_ seg)];
     speaker_idxs := speaker_idxs st ++ [speaker seg];
     merged_segments := merged_segments st |}.

(** One iteration of the loop of line 103. *)
Definition pack_step (chunk_size : Q) (st : pack_state) (seg : Segment) : pack_state :=
  extend_chunk (close_chunk chunk_size st seg) seg.

(** Lines 117-122: the chunk in progress is appended, and the list returned. *)
Definition pack_final (st : pack_state) : list chunk :=
  merged_segments st ++
    [ {| c_start := curr_start st;
         c_end := curr_end st;
         c_segments := seg_idxs st |} ].

Definition pack_init (first : Segment) : pack_state :=
  {| curr_start := start first;
     curr_end := 0;
     seg_idxs := [];
     speaker_idxs := [];
     merged_segments := [] |}.

Definition merge_chunks (segments_list : list Segment) (chunk_size : Q)
  : result (list chunk) :=
  if negb (Qgtb chunk_size 0) then Raise AssertionError
  else
    match segments_list with
    | [] => Raise AssertionError
    | first :: _ =>
        Ok (pack_final (fold_left (pack_step chunk_size) segments_list (pack_init first)))
    end.

(** What the caller receives: the list of dicts. *)
Definition merge_chunks_dicts (segments_list : list Segment) (chunk_size : Q)
  : result (list pydict) :=
  chunks <- merge_chunks segments_list chunk_size ;;
  Ok (map chunk_items chunks).

Definition seg_pair (s : Segment) : Q * Q := (start s, end_ s).

Definition flatten_segments (chunks : list chunk) : list (Q * Q) :=
  List.concat (map c_segments chunks).

(** ** ScoreBinarizer: [Binarize] *)

(** A duration bound: a float or [float('inf')]. *)
Inductive bound : Type :=
| Finite (x : Q)
| Infinity.

(** [x > m] and [m < float("inf")]. *)
Definition exceeds (x : Q) (m : bound) : bool :=
  match m with
  | Finite q => Qgtb x q
  | Infinity => false
  end.

Definition is_finite (m : bound) : bool :=
  match m with
  | Finite _ => true
  | Infinity => false
  end.

Record Binarize : Type := mkBinarize {
  onset : Q;
  offset : Q;
  pad_onset : Q;
  pad_offset : Q;
  min_duration_on : Q;
  min_duration_off : Q;
  max_duration : bound
}.

(** [x or d] for an optional float [x]: [None] and [0.0] are falsy. *)
Definition or_else (x : option Q) (d : Q) : Q :=
  match x with
  | Some v => if truthy v then v else d
  | None => d
  end.

(** [Binarize.__init__] (lines 152-174), every argument given. *)
Definition Binarize_init (onset' : Q) (offset' : option Q)
  (min_duration_on' min_duration_off' pad_onset' pad_offset' : Q)
  (max_duration' : bound) : Binarize :=
  {| onset := onset';
     offset := or_else offset' onset';
     pad_onset := pad_onset';
     pad_offset := pad_offset';
     min_duration_on := min_duration_on';
     min_duration_off := min_duration_off';
     max_duration := max_duration' |}.

(** The defaults of the signature, but for the thresholds. *)
Definition Binarize_thresholds (onset' : Q) (offset' : option Q) : Binarize :=
  Binarize_init onset' offset' 0 0 0 0 Infinity.

(** Modelled from the spec: the frame grid ([pyannote.core]'s
    [SlidingWindowFeature], not under src/).  [timestamps] is the list built
    at line 190, one frame midpoint per frame; [data_T] holds the columns of
    [scores.data.T], one per track, each with one score per frame; [labels]
    is [scores.labels]. *)
Record SlidingWindowFeature : Type := mkGrid {
  timestamps : list Q;
  data_T : list (list Q);
  labels : option (list string)
}.

Definition grid_shaped (scores : SlidingWindowFeature) : Prop :=
  Forall (fun k_scores => length k_scores = length (timestamps scores)) (data_T scores).

Inductive label : Type :=
| LabelIdx (k : nat)
| LabelName (s : string).

Inductive track : Type :=
| TrackIdx (k : nat)
| TrackGen (n : nat).

Definition label_eqb (a b : label) : bool :=
  match a, b with
  | LabelIdx i, LabelIdx j => Nat.eqb i j
  | LabelName s, LabelName t => String.eqb s t
  | _, _ => false
  end.

Definition track_eqb (a b : track) : bool :=
  match a, b with
  | TrackIdx i, TrackIdx j => Nat.eqb i j
  | TrackGen i, TrackGen j => Nat.eqb i j
  | _, _ => false
  end.

Definition seg_eqb (a b : Q * Q) : bool :=
  Qeq_bool (fst a) (fst b) && Qeq_bool (snd a) (snd b).

(** Modelled from the spec: the Annotation ([pyannote.core], not under
    src/), "a collection of (Segment, Track) entries", each with its label.
    Entries are kept in the order they were first set; reading goes through
    [itertracks], which orders them by segment.  A region is the pair of its
    start and end, whatever these are. *)
Record entry : Type := mkEntry {
  e_segment : Q * Q;
  e_track : track;
  e_label : label
}.

Definition Annotation : Type := list entry.

Definition same_key (s : Q * Q) (k : track) (e : entry) : bool :=
  seg_eqb (e_segment e) s && track_eqb (e_track e) k.

(** [active[region, k] = label]: an entry of the same key is replaced. *)
Definition annotation_set (active : Annotation) (region : Q * Q) (k : track) (l : label)
  : Annotation :=
  filter (fun e => negb (same_key region k e)) active ++ [mkEntry region k l].

(** Python's [l[i]] for [i >= 0]. *)
Definition index {A : Type} (l : list A) (i : nat) : result A :=
  match nth_error l i with
  | Some x => Ok x
  | None => Raise IndexError
  end.

(** Modelled from the spec: [numpy.argmin] on a list of floats (a library
    call, not under src/): "the minimum score (first occurrence wins on
    ties)"; an empty list raises [ValueError]. *)
Fixpoint argmin_from (best_idx : nat) (best : Q) (i : nat) (l : list Q) : nat :=
  match l with
  | [] => best_idx
  | x :: l' =>
      if Qltb x best then argmin_from i x (S i) l'
      else argmin_from best_idx best (S i) l'
  end.

Definition argmin (l : list Q) : result nat :=
  match l with
  | [] => Raise ValueError
  | x :: l' => Ok (argmin_from 0 x 1 l')
  end.

(** The variables of one track's pass (lines 199-234).  [loop_t] is the loop
    variable [t], unbound until the loop has run once; [emitted] lists the
    regions set in [active] for this track, in order. *)
Record track_state : Type := mkTrack {
  st_start : Q;
  is_active : bool;
  curr_scores : list Q;
  curr_timestamps : list Q;
  loop_t : option Q;
  emitted : list (Q * Q)
}.

(** Lines 207-218: the run is split at its least score. *)
Definition split_run (b : Binarize) (st : track_state) : result track_state :=
  let search_after := (length (curr_scores st) / 2)%nat in
  i <- argmin (skipn search_after (curr_scores st)) ;;
  let min_score_div_idx := (search_after + i)%nat in
  min_score_t <- index (curr_timestamps st) min_score_div_idx ;;
  Ok {| st_start := min_score_t;
        is_active := is_active st;
        curr_scores := skipn (min_score_div_idx + 1) (curr_scores st);
        curr_timestamps := skipn (min_score_div_idx + 1) (curr_timestamps st);
        loop_t := loop_t st;
        emitted := emitted st ++ [(st_start st - pad_onset b, min_score_t + pad_offset b)] |}.

(** Lines 220-226: the run ends at [t]. *)
Definition end_run (b : Binarize) (st : track_state) (t : Q) : track_state :=
  {| st_start := t;
     is_active := false;
     curr_scores := [];
     curr_timestamps := [];
     loop_t := loop_t st;
     emitted := emitted st ++ [(st_start st - pad_onset b, t + pad_offset b)] |}.

(** Lines 230-232: a run begins at [t]; the buffers are left as they are. *)
Definition begin_run (st : track_state) (t : Q) : track_state :=
  {| st_start := t;
     is_active := true;
     curr_scores := curr_scores st;
     curr_timestamps := curr_timestamps st;
     loop_t := loop_t st;
     emitted := emitted st |}.

(** Lines 233-234. *)
Definition push_frame (st : track_state) (t y : Q) : track_state :=
  {| st_start := st_start st;
     is_active := is_active st;
     curr_scores := curr_scores st ++ [y];
     curr_timestamps := curr_timestamps st ++ [t];
     loop_t := loop_t st;
     emitted := emitted st |}.

Definition bind_t (st : track_state) (t : Q) : track_state :=
  {| st_start := st_start st;
     is_active := is_active st;
     curr_scores := curr_scores st;
     curr_timestamps := curr_timestamps st;
     loop_t := Some t;
     emitted := emitted st |}.

(** One iteration of the loop of line 203 on the frame [(t, y)]. *)
Definition binarize_step (b : Binarize) (st0 : track_state) (frame : Q * Q)
  : result track_state :=
  let (t, y) := frame in
  let st := bind_t st0 t in
  st' <- (if is_active st then
            if exceeds (t - st_start st) (max_duration b) then split_run b st
            else if Qltb y (offset b) then Ok (end_run b st t)
            else Ok st
          else
            if Qgtb y (onset b) then Ok (begin_run st t)
            else Ok st) ;;
  Ok (push_frame st' t y).

Fixpoint binarize_loop (b : Binarize) (frames : list (Q * Q)) (st : track_state)
  : result track_state :=
  match frames with
  | [] => Ok st
  | frame :: frames' =>
      st' <- binarize_step b st frame ;;
      binarize_loop b frames' st'
  end.

(** Lines 199-202. *)
Definition track_init (b : Binarize) (t0 y0 : Q) (t : option Q) : track_state :=
  {| st_start := t0;
     is_active := Qgtb y0 (onset b);
     curr_scores := [y0];
     curr_timestamps := [t0];
     loop_t := t;
     emitted := [] |}.

(** Lines 237-239: [t] is read after the loop. *)
Definition final_region (b : Binarize) (st : track_state) : result (list (Q * Q)) :=
  if is_active st then
    match loop_t st with
    | Some t => Ok (emitted st ++ [(st_start st - pad_onset b, t + pad_offset b)])
    | None => Raise NameError
    end
  else Ok (emitted st).

(** The body of the loop of line 194 for one column: the regions it sets
    and the value [t] is left with. *)
Definition binarize_track (b : Binarize) (times : list Q) (t : option Q)
  (k_scores : list Q) : result (list (Q * Q) * option Q) :=
  t0 <- index times 0 ;;
  y0 <- index k_scores 0 ;;
  st <- binarize_loop b (combine (tl times) (tl k_scores)) (track_init b t0 y0 t) ;;
  regions <- final_region b st ;;
  Ok (regions, loop_t st).

(** Line 196. *)
Definition track_label (scores : SlidingWindowFeature) (k : nat) : result label :=
  match labels scores with
  | None => Ok (LabelIdx k)
  | Some names => name <- index names k ;; Ok (LabelName name)
  end.

Definition set_regions (active : Annotation) (regions : list (Q * Q)) (k : nat) (l : label)
  : Annotation :=
  fold_left (fun a region => annotation_set a region (TrackIdx k) l) regions active.

(** The loop of line 194 from track [k] on. *)
Fixpoint binarize_tracks (b : Binarize) (scores : SlidingWindowFeature) (k : nat)
  (columns : list (list Q)) (t : option Q) (active : Annotation) : result Annotation :=
  match columns with
  | [] => Ok active
  | k_scores :: columns' =>
      l <- track_label scores k ;;
      r <- binarize_track b (timestamps scores) t k_scores ;;
      binarize_tracks b scores (S k) columns' (snd r) (set_regions active (fst r) k l)
  end.

(** Lines 188-239: the annotation before post-processing. *)
Definition binarize_raw (b : Binarize) (scores : SlidingWindowFeature) : result Annotation :=
  binarize_tracks b scores 0 (data_T scores) None [].

(** ** The support/collar merge *)

(** Order of segments: by start, then by end. *)
Definition seg_leb (a b : Q * Q) : bool :=
  Qltb (fst a) (fst b) || (Qeq_bool (fst a) (fst b) && Qle_bool (snd a) (snd b)).

Fixpoint insert_by {A : Type} (key : A -> Q * Q) (x : A) (l : list A) : list A :=
  match l with
  | [] => [x]
  | y :: l' =>
      if seg_leb (key x) (key y) then x :: y :: l'
      else y :: insert_by key x l'
  end.

Definition sort_by {A : Type} (key : A -> Q * Q) (l : list A) : list A :=
  fold_right (insert_by key) [] l.

Definition union (a b : Q * Q) : Q * Q :=
  (Qmin (fst a) (fst b), Qmax (snd a) (snd b)).

(** Modelled from the spec: the support/collar merge primitive
    ([pyannote.core]'s [Timeline.support], not under src/): "sort intervals by
    start; sweep; merge the current interval with the next if
    [next.start - current.end < collar], taking the union; otherwise close the
    current interval and start a new one". *)
Fixpoint support_sweep (collar : Q) (current : Q * Q) (rest : list (Q * Q))
  : list (Q * Q) :=
  match rest with
  | [] => [current]
  | next :: rest' =>
      if Qltb (fst next - snd current) collar
      then support_sweep collar (union current next) rest'
      else current :: support_sweep collar next rest'
  end.

Definition timeline_support (collar : Q) (segments : list (Q * Q)) : list (Q * Q) :=
  match sort_by (fun s => s) segments with
  | [] => []
  | first :: rest => support_sweep collar first rest
  end.

(** The labels of an annotation, each once. *)
Fixpoint labels_of (a : Annotation) : list label :=
  match a with
  | [] => []
  | e :: a' =>
      e_label e :: filter (fun l => negb (label_eqb l (e_label e))) (labels_of a')
  end.

Definition label_timeline (a : Annotation) (l : label) : list (Q * Q) :=
  map e_segment (filter (fun e => label_eqb (e_label e) l) a).

Definition number_tracks (segs : list ((Q * Q) * label)) : Annotation :=
  map (fun p => mkEntry (fst (snd p)) (TrackGen (fst p)) (snd (snd p)))
      (combine (seq 0 (length segs)) segs).

(** Modelled from the spec: [Annotation.support(collar)] ([pyannote.core],
    not under src/): the primitive above, applied to the segments of each
    label in turn; the merged segments get tracks of new names. *)
Definition annotation_support (collar : Q) (a : Annotation) : Annotation :=
  number_tracks
    (flat_map (fun l => map (fun s => (s, l)) (timeline_support collar (label_timeline a l)))
              (labels_of a)).

(** Modelled from the spec: [active.itertracks()] ([pyannote.core], not
    under src/) reads the entries in the order of their segments, which makes
    the output of the merger "start-sorted". *)
Definition itertracks (a : Annotation) : Annotation := sort_by e_segment a.

Definition seg_duration (s : Q * Q) : Q := snd s - fst s.

(** Lines 249-252 and 268-271: tracks shorter than [min_duration_on] are
    deleted. *)
Definition drop_short (min_duration_on' : Q) (active : Annotation) : Annotation :=
  if Qgtb min_duration_on' 0
  then filter (fun e => negb (Qltb (seg_duration (e_segment e)) min_duration_on')) active
  else active.

(** Line 243 and line 264. *)
Definition merge_enabled (pad_onset' pad_offset' min_duration_off' : Q) : bool :=
  Qgtb pad_offset' 0 || Qgtb pad_onset' 0 || Qgtb min_duration_off' 0.

(** [Binarize.__call__] (lines 176-254). *)
Definition Binarize_call (b : Binarize) (scores : SlidingWindowFeature) : result Annotation :=
  active <- binarize_raw b scores ;;
  active <- (if merge_enabled (pad_onset b) (pad_offset b) (min_duration_off b) then
               if is_finite (max_duration b) then Raise NotImplementedError
               else Ok (annotation_support (min_duration_off b) active)
             else Ok active) ;;
  Ok (drop_short (min_duration_on b) active).

(** ** IntervalMerger: [merge_vad] *)

(** Lines 259-262. *)
Fixpoint pad_intervals (pad_onset' pad_offset' : Q) (k : nat) (vad_arr : list (Q * Q))
  (active : Annotation) : Annotation :=
  match vad_arr with
  | [] => active
  | vad_t :: vad_arr' =>
      pad_intervals pad_onset' pad_offset' (S k) vad_arr'
        (annotation_set active (fst vad_t - pad_onset', snd vad_t + pad_offset')
                        (TrackIdx k) (LabelIdx 1))
  end.

(** [merge_vad] (lines 257-275); the data frame returned has one row per
    entry of the annotation, with the start and the end of its segment. *)
Definition merge_vad (vad_arr : list (Q * Q))
  (pad_onset' pad_offset' min_duration_off' min_duration_on' : Q) : list (Q * Q) :=
  let active := pad_intervals pad_onset' pad_offset' 0 vad_arr [] in
  let active :=
    if merge_enabled pad_onset' pad_offset' min_duration_off'
    then annotation_support min_duration_off' active
    else active in
  let active := drop_short min_duration_on' active in
  map e_segment (itertracks active).

(** ** The pipeline: [VADSegmentPipeline] *)

(** One entry of the list that silero's [get_speech_timestamps] returns (an
    external call): a dict with the sample indices 'start' and 'end', as in
    the sample output of line 68. *)
Record speech_timestamp : Type := mkStamp {
  sample_start : Z;
  sample_end : Z
}.

(** Lines 59-62: a sample rate of 0 stands for the frame rate of the audio
    file, which [wave] gives as a positive integer. *)
Definition resolve_rate (file_rate : positive) (sample_rate : Z) : Z :=
  if (sample_rate =? 0)%Z then Zpos file_rate else sample_rate.

(** Line 70, for one entry: sample indices over the sample rate, which is
    not 0 there. *)
Definition to_seconds (sample_rate : Z) (i : speech_timestamp) : Segment :=
  {| start := inject_Z (sample_start i) / inject_Z sample_rate;
     end_ := inject_Z (sample_end i) / inject_Z sample_rate;
     speaker := "UNKNOWN" |}.

(** [get_segments_silero_vad] (lines 56-70); [get_speech_timestamps] is the
    detector on the audio of the file, as a function of the sample rate. *)
Definition get_segments_silero_vad (file_rate : positive)
  (get_speech_timestamps : Z -> list speech_timestamp) (sample_rate : Z) : list Segment :=
  let sample_rate := resolve_rate file_rate sample_rate in
  map (to_seconds sample_rate) (get_speech_timestamps sample_rate).

(** [get_segments] (lines 72-83) on its silero branch. *)
Definition get_segments_silero (chunk_length : Z) (file_rate : positive)
  (get_speech_timestamps : Z -> list speech_timestamp) (sample_rate : Z)
  : result (list chunk) :=
  merge_chunks (get_segments_silero_vad file_rate get_speech_timestamps sample_rate)
               (inject_Z chunk_length).

(** Line 48: the binarizer of [get_segments_pyannote]. *)
Definition pyannote_binarize (chunk_size : Z) : Binarize :=
  Binarize_init 0.5 None 0 0 0 0 (Finite (inject_Z chunk_size)).

(** ** Predicates of the specification, and invariants *)

(** Input conditions named by the specification of the packer. *)
Definition sorted_by_start (segs : list Segment) : Prop :=
  Sorted (fun a b => start a <= start b) segs.

Definition well_formed (s : Segment) : Prop := start s < end_ s.

Definition duration (c : chunk) : Q := c_end c - c_start c.

(** The bound of the specification on one chunk: more than one segment
    means a duration within [chunk_size], and a duration beyond [chunk_size]
    means exactly one segment. *)
Definition chunk_within (chunk_size : Q) (c : chunk) : Prop :=
  ((1 < length (c_segments c))%nat -> duration c <= chunk_size) /\
  (chunk_size < duration c -> length (c_segments c) = 1%nat).

(** The states one track's pass goes through. *)
Inductive reachable (b : Binarize) : track_state -> Prop :=
| reach_init (t0 y0 : Q) (t : option Q) : reachable b (track_init b t0 y0 t)
| reach_step (st st' : track_state) (frame : Q * Q) :
    reachable b st -> binarize_step b st frame = Ok st' -> reachable b st'.

(** [i] is the first index of a least element of [l] among the indices from
    [lo] on. *)
Definition first_min_in (l : list Q) (lo i : nat) : Prop :=
  (lo <= i < length l)%nat /\
  exists m, nth_error l i = Some m /\
    (forall j x, (lo <= j)%nat -> nth_error l j = Some x -> m <= x) /\
    (forall j x, (lo <= j < i)%nat -> nth_error l j = Some x -> m < x).

(** [scores.labels], when given, names every track. *)
Definition labels_cover (scores : SlidingWindowFeature) : Prop :=
  match labels scores with
  | None => True
  | Some names => (length (data_T scores) <= length names)%nat
  end.

(** The score and timestamp buffers of a pass go together and are not empty. *)
Definition buffers_ok (st : track_state) : Prop :=
  length (curr_scores st) = length (curr_timestamps st) /\ curr_scores st <> [].

(** The gap from the end of [a] to the start of [b] is at least [collar]. *)
Definition gap_after (collar : Q) (a b : Q * Q) : Prop :=
  collar <= fst b - snd a.

(** Two intervals, in either order, are at least [collar] apart. *)
Definition separated (collar : Q) (a b : Q * Q) : Prop :=
  gap_after collar a b \/ gap_after collar b a.

Definition overlapping (a b : Q * Q) : Prop :=
  fst a < snd b /\ fst b < snd a.

(** Both ends of a region are at or after time 0. *)
Definition nonneg_region (r : Q * Q) : Prop := 0 <= fst r /\ 0 <= snd r.

(** A region at or after time 0 that ends after it starts. *)
Definition proper_region (r : Q * Q) : Prop := 0 <= fst r /\ fst r < snd r.

(** Every time a pass holds is at or after time 0. *)
Definition stamps_nonneg (st : track_state) : Prop :=
  0 <= st_start st /\
  Forall (fun t => 0 <= t) (curr_timestamps st) /\
  (forall t, loop_t st = Some t -> 0 <= t) /\
  Forall nonneg_region (emitted st).

(** A chunk that holds a segment, and is within [chunk_size] when it holds
    two or more. *)
Definition chunk_ok (chunk_size : Q) (c : chunk) : Prop :=
  (1 <= length (c_segments c))%nat /\
  ((2 <= length (c_segments c))%nat -> duration c <= chunk_size).

(** The loop invariant behind the duration bound: [rest] is what is left of
    the input, every chunk closed so far is [chunk_ok], and the chunk in
    progress either is still the empty one of line 92 or holds segments that
    end after [curr_start]. *)
Definition pack_inv (chunk_size : Q) (st : pack_state) (rest : list Segment) : Prop :=
  Forall (chunk_ok chunk_size) (merged_segments st) /\
  Forall (fun s => curr_start st <= start s) rest /\
  ((seg_idxs st = [] /\ curr_end st - curr_start st <= 0) \/
   (seg_idxs st <> [] /\ curr_start st < curr_end st /\
    ((2 <= length (seg_idxs st))%nat -> curr_end st - curr_start st <= chunk_size))).

(** A chunk spans its segments: it starts where its first segment starts
    and ends where its last segment ends. *)
Definition chunk_spans (c : chunk) : Prop :=
  match c_segments c with
  | [] => False
  | p :: l => c_start c = fst p /\ c_end c = snd (last l p)
  end.

(** The invariant of the packing loop behind [chunk_spans]. *)
Definition span_inv (st : pack_state) (rest : list Segment) : Prop :=
  Forall chunk_spans (merged_segments st) /\
  match seg_idxs st with
  | [] =>
      curr_end st - curr_start st <= 0 /\
      match rest with
      | [] => True
      | seg :: _ => curr_start st = start seg
      end
  | p :: l => curr_start st = fst p /\ curr_end st = snd (last l p)
  end.

(** No segment starts before an earlier one has ended. *)
Definition non_overlapping (segs : list Segment) : Prop :=
  StronglySorted (fun a b => end_ a <= start b) segs.

(** The invariant of the packing loop behind the order of the chunks. *)
Definition order_inv (st : pack_state) (rest : list Segment) : Prop :=
  ForallOrdPairs (fun c d => c_end c <= c_start d) (merged_segments st) /\
  Forall (fun c => c_start c <= c_end c) (merged_segments st) /\
  Forall (fun c => c_end c <= curr_start st) (merged_segments st) /\
  Forall (fun s => curr_start st <= start s) rest /\
  ((seg_idxs st = [] /\ curr_end st - curr_start st <= 0) \/
   (seg_idxs st <> [] /\ curr_start st <= curr_end st /\
    Forall (fun s => curr_end st <= start s) rest)).

(** The frame times a padded region was built from. *)
Definition stamp_start (b : Binarize) (r : Q * Q) : Q := fst r + pad_onset b.
Definition stamp_end (b : Binarize) (r : Q * Q) : Q := snd r - pad_offset b.

(** The invariant of one track's pass when no run is ever split: [now] is
    the time of the last frame seen; the regions set so far end at or before
    [start], each starts before it ends, and they follow one another. *)
Definition run_inv (b : Binarize) (st : track_state) (now : Q) : Prop :=
  st_start st <= now /\
  Forall (fun r => stamp_end b r <= st_start st) (emitted st) /\
  Forall (fun r => stamp_start b r < stamp_end b r) (emitted st) /\
  ForallOrdPairs (fun r1 r2 => stamp_end b r1 <= stamp_start b r2) (emitted st).

(** The interval [v] of the input of [merge_vad], padded (line 261). *)
Definition padded (pad_onset' pad_offset' : Q) (v : Q * Q) : Q * Q :=
  (fst v - pad_onset', snd v + pad_offset').

(** [o] spans [s]. *)
Definition covers (o s : Q * Q) : Prop :=
  fst o <= fst s /\ snd s <= snd o.

(** The entries set so far are on tracks numbered below [k]. *)
Definition tracks_below (k : nat) (active : Annotation) : Prop :=
  Forall (fun e => match e_track e with
                   | TrackIdx j => (j < k)%nat
                   | TrackGen _ => True
                   end) active.

(** * Properties *)

(** ** Float comparisons *)

Lemma Qgtb_true (x y : Q) : Qgtb x y = true <-> y < x.
Proof.
  unfold Qgtb. rewrite negb_true_iff, <- not_true_iff_false, Qle_bool_iff.
  split; [apply Qnot_le_lt | apply Qlt_not_le].
Qed.

Lemma Qgtb_false (x y : Q) : Qgtb x y = false <-> x <= y.
Proof.
  unfold Qgtb. rewrite negb_false_iff. apply Qle_bool_iff.
Qed.

Lemma Qltb_true (x y : Q) : Qltb x y = true <-> x < y.
Proof. apply (Qgtb_true y x). Qed.

Lemma Qltb_false (x y : Q) : Qltb x y = false <-> y <= x.
Proof. apply (Qgtb_false y x). Qed.


(** ** ChunkPacker *)

Lemma flatten_segments_snoc (l : list chunk) (c : chunk) :
  flatten_segments (l ++ [c]) = flatten_segments l ++ c_segments c.
Proof.
  unfold flatten_segments. rewrite map_app, concat_app. simpl.
  now rewrite app_nil_r.
Qed.

Lemma pack_step_flatten (chunk_size : Q) (st : pack_state) (seg : Segment) :
  flatten_segments (pack_final (pack_step chunk_size st seg))
  = flatten_segments (pack_final st) ++ [seg_pair seg].
Proof.
  unfold pack_step, pack_final, close_chunk, extend_chunk, seg_pair.
  destruct (Qgtb (end_ seg - curr_start st) chunk_size
            && Qgtb (curr_end st - curr_start st) 0); cbn [curr_start curr_end seg_idxs merged_segments];
    rewrite !flatten_segments_snoc; cbn [c_segments];
    rewrite <- ?app_assoc; reflexivity.
Qed.

Lemma pack_loop_flatten (chunk_size : Q) (segs : list Segment) :
  forall st,
    flatten_segments (pack_final (fold_left (pack_step chunk_size) segs st))
    = flatten_segments (pack_final st) ++ map seg_pair segs.
Proof.
  induction segs as [|seg segs IH]; intros st; simpl.
  - now rewrite app_nil_r.
  - rewrite IH, pack_step_flatten, <- app_assoc. reflexivity.
Qed.

Lemma merge_chunks_returns (segs : list Segment) (chunk_size : Q) :
  segs <> [] -> 0 < chunk_size ->
  exists first rest,
    segs = first :: rest /\
    merge_chunks segs chunk_size
    = Ok (pack_final (fold_left (pack_step chunk_size) segs (pack_init first))).
Proof.
  intros Hne Hpos. destruct segs as [|first rest]; [congruence|].
  exists first, rest. split; [reflexivity|].
  unfold merge_chunks. apply Qgtb_true in Hpos. now rewrite Hpos.
Qed.

(** C1: for a non-empty input and a positive chunk size, [merge_chunks]
    returns, and the "segments" lists of the returned chunks, concatenated in
    output order, are the (start, end) pairs of the input segments in input
    order: nothing lost, repeated or moved.  (The order of the input by start
    is not needed for this.) *)
Theorem merge_chunks_flatten (segs : list Segment) (chunk_size : Q) :
  segs <> [] -> 0 < chunk_size ->
  exists chunks,
    merge_chunks segs chunk_size = Ok chunks /\
    flatten_segments chunks = map seg_pair segs.
Proof.
  intros Hne Hpos.
  destruct (merge_chunks_returns segs chunk_size Hne Hpos) as (first & rest & -> & Hrun).
  eexists. split; [exact Hrun|].
  rewrite pack_loop_flatten. reflexivity.
Qed.

Lemma merge_chunks_flatten_witness :
  exists chunks,
    merge_chunks [mkSegment 0 10 "A"; mkSegment 10 25 "B"; mkSegment 25 40 "A"] 20
    = Ok chunks /\
    flatten_segments chunks = [(0, 10); (10, 25); (25, 40)].
Proof.
  apply (merge_chunks_flatten
           [mkSegment 0 10 "A"; mkSegment 10 25 "B"; mkSegment 25 40 "A"] 20).
  - discriminate.
  - reflexivity.
Defined.

(** C9: [merge_chunks] raises the assertion error exactly when the input
    list is empty or the chunk size is not positive, it raises nothing else,
    and on every other input it returns a list with at least one chunk. *)
Theorem merge_chunks_precondition (segs : list Segment) (chunk_size : Q) :
  (merge_chunks segs chunk_size = Raise AssertionError
   <-> segs = [] \/ chunk_size <= 0) /\
  (forall e, merge_chunks segs chunk_size = Raise e -> e = AssertionError) /\
  (segs <> [] -> 0 < chunk_size ->
   exists chunks,
     merge_chunks segs chunk_size = Ok chunks /\ (1 <= length chunks)%nat).
Proof.
  split; [|split].
  - unfold merge_chunks.
    destruct (Qgtb chunk_size 0) eqn:Hcs; simpl.
    + apply Qgtb_true in Hcs. destruct segs as [|first rest].
      * split; auto.
      * split; [discriminate|].
        intros [H|H]; [discriminate|]. exfalso. lra.
    + apply Qgtb_false in Hcs. split; auto.
  - unfold merge_chunks. intros e.
    destruct (Qgtb chunk_size 0); simpl; [destruct segs|]; congruence.
  - intros Hne Hpos.
    destruct (merge_chunks_returns segs chunk_size Hne Hpos) as (first & rest & -> & Hrun).
    eexists. split; [exact Hrun|].
    unfold pack_final. rewrite length_app. simpl. lia.
Qed.

Lemma merge_chunks_precondition_witness :
  merge_chunks [] 30 = Raise AssertionError /\
  merge_chunks [mkSegment 0 10 "A"] 0 = Raise AssertionError /\
  exists chunks,
    merge_chunks [mkSegment 0 10 "A"] 30 = Ok chunks /\ (1 <= length chunks)%nat.
Proof.
  split; [|split].
  - apply (merge_chunks_precondition [] 30). left. reflexivity.
  - apply (merge_chunks_precondition [mkSegment 0 10 "A"] 0). right. discriminate.
  - apply (merge_chunks_precondition [mkSegment 0 10 "A"] 30).
    + discriminate.
    + reflexivity.
Defined.

Lemma pack_step_inv (chunk_size : Q) (st : pack_state) (seg : Segment) (rest : list Segment) :
  well_formed seg ->
  Forall (fun s => start seg <= start s) rest ->
  pack_inv chunk_size st (seg :: rest) ->
  pack_inv chunk_size (pack_step chunk_size st seg) rest.
Proof.
  unfold well_formed. intros Hwf Hle (Hm & Hcs & Hcur).
  apply Forall_cons_iff in Hcs. destruct Hcs as [Hseg Hrest].
  unfold pack_step, close_chunk.
  destruct (Qgtb (end_ seg - curr_start st) chunk_size) eqn:Hlong;
    destruct (Qgtb (curr_end st - curr_start st) 0) eqn:Hsome; simpl;
    unfold pack_inv, extend_chunk; cbn [curr_start curr_end seg_idxs merged_segments].
  - (* the chunk in progress is closed, [seg] opens the next one *)
    apply Qgtb_true in Hsome.
    destruct Hcur as [[_ Hz]|(Hne & Hlt & Hdur)]; [lra|].
    split; [|split].
    + apply Forall_app. split; [exact Hm|].
      constructor; [|constructor].
      unfold chunk_ok, duration; simpl. split; [|exact Hdur].
      destruct (seg_idxs st); [congruence|simpl; lia].
    + exact Hle.
    + right. simpl. split; [discriminate|]. split; [exact Hwf|]. lia.
  - apply Qgtb_false in Hsome.
    destruct Hcur as [[Hnil _]|(_ & Hlt & _)]; [|lra].
    split; [exact Hm|]. split; [exact Hrest|].
    right. rewrite Hnil. simpl. split; [discriminate|]. split; [lra|lia].
  - apply Qgtb_false in Hlong.
    split; [exact Hm|]. split; [exact Hrest|].
    right. split; [now destruct (seg_idxs st)|]. split; [lra|]. intros _. lra.
  - apply Qgtb_false in Hlong.
    split; [exact Hm|]. split; [exact Hrest|].
    right. split; [now destruct (seg_idxs st)|]. split; [lra|]. intros _. lra.
Qed.

Lemma pack_step_nonempty (chunk_size : Q) (st : pack_state) (seg : Segment) :
  seg_idxs (pack_step chunk_size st seg) <> [].
Proof.
  unfold pack_step, extend_chunk. simpl.
  now destruct (seg_idxs (close_chunk chunk_size st seg)).
Qed.

Lemma pack_loop_inv (chunk_size : Q) (segs : list Segment) :
  forall st,
    Forall well_formed segs ->
    StronglySorted (fun a b => start a <= start b) segs ->
    pack_inv chunk_size st segs ->
    pack_inv chunk_size (fold_left (pack_step chunk_size) segs st) [].
Proof.
  induction segs as [|seg segs IH]; intros st Hwf Hsorted Hinv; simpl.
  - exact Hinv.
  - apply Forall_cons_iff in Hwf. destruct Hwf as [Hseg Hwf].
    apply StronglySorted_inv in Hsorted. destruct Hsorted as [Hsorted Hhd].
    apply IH; [exact Hwf|exact Hsorted|].
    now apply pack_step_inv.
Qed.

Lemma pack_loop_nonempty (chunk_size : Q) (segs : list Segment) :
  forall st,
    segs <> [] \/ seg_idxs st <> [] ->
    seg_idxs (fold_left (pack_step chunk_size) segs st) <> [].
Proof.
  induction segs as [|seg segs IH]; intros st H; simpl.
  - now destruct H.
  - apply IH. right. apply pack_step_nonempty.
Qed.

Lemma chunk_ok_within (chunk_size : Q) (c : chunk) :
  chunk_ok chunk_size c -> chunk_within chunk_size c.
Proof.
  unfold chunk_ok, chunk_within. intros [Hone Htwo]. split.
  - intros H. apply Htwo. lia.
  - intros Hlong.
    destruct (Nat.eq_dec (length (c_segments c)) 1) as [E|N]; [exact E|].
    assert (duration c <= chunk_size) by (apply Htwo; lia). lra.
Qed.

Lemma start_le_trans : Transitive (fun a b : Segment => start a <= start b).
Proof. intros a b c Hab Hbc. now apply Qle_trans with (start b). Qed.

(** Why the bound below asks for starts at or after time 0, as the data
    model has them: [curr_end] starts at 0 (line 92), so for a first segment
    that starts before time 0 [curr_end - curr_start > 0] holds before any
    segment was added, and an empty chunk is closed. *)
Example merge_chunks_negative_start :
  let segs := [mkSegment (-100) 50 "A"] in
  sorted_by_start segs /\ Forall well_formed segs /\ 0 < 30 /\
  exists c rest,
    merge_chunks segs 30 = Ok (c :: rest) /\
    c_segments c = [] /\ duration c == 100 /\
    ~ chunk_within 30 c.
Proof.
  cbv zeta. split; [|split; [|split]].
  - repeat constructor.
  - repeat constructor.
  - reflexivity.
  - eexists. eexists. split; [vm_compute; reflexivity|].
    split; [reflexivity|]. split; [reflexivity|].
    intros [_ H]. unfold duration in H. simpl in H.
    assert (Hlen : 30 < 0 - -100) by reflexivity.
    specialize (H Hlen). discriminate.
Qed.

(** C3: for a non-empty list of segments of the data model (times at or
    after 0), sorted by start, each with [start < end], and a positive chunk
    size, [merge_chunks] returns chunks that each hold at least one segment;
    a chunk with more than one segment spans at most [chunk_size], and a
    chunk that spans more than [chunk_size] holds exactly one segment. *)
Theorem merge_chunks_bound (segs : list Segment) (chunk_size : Q) :
  segs <> [] -> 0 < chunk_size ->
  sorted_by_start segs ->
  Forall well_formed segs ->
  Forall (fun s => 0 <= start s) segs ->
  exists chunks,
    merge_chunks segs chunk_size = Ok chunks /\
    Forall (fun c => c_segments c <> [] /\ chunk_within chunk_size c) chunks.
Proof.
  intros Hne Hpos Hsorted Hwf Hnonneg.
  destruct (merge_chunks_returns segs chunk_size Hne Hpos) as (first & rest & E & Hrun).
  eexists. split; [exact Hrun|].
  apply (Sorted_StronglySorted start_le_trans) in Hsorted.
  assert (Hinit : pack_inv chunk_size (pack_init first) segs).
  { unfold pack_inv, pack_init; simpl. split; [constructor|]. split.
    - subst segs. constructor; [apply Qle_refl|].
      apply StronglySorted_inv in Hsorted. tauto.
    - left. split; [reflexivity|].
      subst segs. apply Forall_inv in Hnonneg. lra. }
  pose proof (pack_loop_inv chunk_size segs _ Hwf Hsorted Hinit) as (Hm & _ & Hcur).
  pose proof (pack_loop_nonempty chunk_size segs (pack_init first) (or_introl Hne)) as Hlast.
  set (st := fold_left (pack_step chunk_size) segs (pack_init first)) in *.
  assert (Hall : Forall (chunk_ok chunk_size) (pack_final st)).
  { unfold pack_final. apply Forall_app. split; [exact Hm|].
    constructor; [|constructor].
    destruct Hcur as [[Hnil _]|(_ & _ & Hdur)]; [congruence|].
    unfold chunk_ok, duration; simpl. split; [|exact Hdur].
    destruct (seg_idxs st); [congruence|simpl; lia]. }
  eapply Forall_impl; [|exact Hall].
  intros c Hc. split.
  - destruct Hc as [Hone _]. destruct (c_segments c); [simpl in Hone; lia|discriminate].
  - now apply chunk_ok_within.
Qed.

Lemma merge_chunks_bound_witness :
  let segs := [mkSegment 0 8 "A"; mkSegment 9 15 "B"; mkSegment 18 60 "A"] in
  merge_chunks segs 20
  = Ok [mkChunk 0 15 [(0, 8); (9, 15)]; mkChunk 18 60 [(18, 60)]] /\
  exists chunks,
    merge_chunks segs 20 = Ok chunks /\
    Forall (fun c => c_segments c <> [] /\ chunk_within 20 c) chunks.
Proof.
  cbv zeta. split; [vm_compute; reflexivity|].
  apply (merge_chunks_bound
           [mkSegment 0 8 "A"; mkSegment 9 15 "B"; mkSegment 18 60 "A"] 20).
  - discriminate.
  - reflexivity.
  - repeat constructor; discriminate.
  - repeat constructor.
  - repeat constructor; discriminate.
Defined.

(** C2 as the specification states it fails: the dicts returned by
    [merge_chunks] have no "speakers" key, although the labels were read. *)
Lemma merge_chunks_speakers_counterexample :
  exists d,
    merge_chunks_dicts [mkSegment 0 10 "SPEAKER_00"] 30 = Ok [d] /\
    dict_get d "speakers" = None.
Proof.
  eexists. split; vm_compute; reflexivity.
Qed.

(** C2, amended: every record returned by [merge_chunks] holds exactly the
    three fields "start" (float), "end" (float) and "segments" (the ordered
    list of (start, end) pairs of its segments), and no "speakers" field. *)
Theorem merge_chunks_fields (segs : list Segment) (chunk_size : Q) :
  segs <> [] -> 0 < chunk_size ->
  exists chunks,
    merge_chunks segs chunk_size = Ok chunks /\
    merge_chunks_dicts segs chunk_size = Ok (map chunk_items chunks) /\
    Forall (fun d =>
              dict_keys d = ["start"; "end"; "segments"]%string /\
              dict_get d "speakers" = None /\
              exists s e l,
                dict_get d "start" = Some (PyFloat s) /\
                dict_get d "end" = Some (PyFloat e) /\
                dict_get d "segments" = Some (PyPairs l))
           (map chunk_items chunks).
Proof.
  intros Hne Hpos.
  destruct (merge_chunks_returns segs chunk_size Hne Hpos) as (first & rest & _ & Hrun).
  eexists. split; [exact Hrun|]. split.
  - unfold merge_chunks_dicts. rewrite Hrun. reflexivity.
  - apply Forall_map. apply Forall_forall. intros c _.
    split; [reflexivity|]. split; [reflexivity|].
    exists (c_start c), (c_end c), (c_segments c). repeat split.
Qed.

Lemma merge_chunks_fields_witness :
  exists chunks,
    merge_chunks [mkSegment 0 10 "SPEAKER_00"] 30 = Ok chunks /\
    merge_chunks_dicts [mkSegment 0 10 "SPEAKER_00"] 30 = Ok (map chunk_items chunks) /\
    Forall (fun d =>
              dict_keys d = ["start"; "end"; "segments"]%string /\
              dict_get d "speakers" = None /\
              exists s e l,
                dict_get d "start" = Some (PyFloat s) /\
                dict_get d "end" = Some (PyFloat e) /\
                dict_get d "segments" = Some (PyPairs l))
           (map chunk_items chunks).
Proof.
  apply (merge_chunks_fields [mkSegment 0 10 "SPEAKER_00"] 30).
  - discriminate.
  - reflexivity.
Defined.

(** ** Binarize: the thresholds *)

Lemma or_else_nonzero (x : option Q) (d : Q) :
  ~ d == 0 -> ~ or_else x d == 0.
Proof.
  intros Hd. destruct x as [v|]; simpl; [|exact Hd].
  unfold truthy. destruct (Qeq_bool v 0) eqn:E; simpl; [exact Hd|].
  now apply Qeq_bool_neq.
Qed.

(** C10: an offset of 0.0 passed to [Binarize] is replaced by [onset], just
    as a missing offset is; and when [onset > 0] no argument makes the offset
    threshold 0. *)
Theorem Binarize_init_offset_zero (onset' : Q)
  (min_duration_on' min_duration_off' pad_onset' pad_offset' : Q) (max_duration' : bound) :
  let init offset' :=
    Binarize_init onset' offset' min_duration_on' min_duration_off'
                  pad_onset' pad_offset' max_duration' in
  offset (init (Some 0)) = onset' /\
  init (Some 0) = init None /\
  (0 < onset' -> forall offset', ~ offset (init offset') == 0).
Proof.
  cbv zeta. split; [reflexivity|]. split; [reflexivity|].
  intros Hpos offset'. simpl. apply or_else_nonzero. lra.
Qed.

Lemma Binarize_init_offset_zero_witness :
  offset (Binarize_thresholds 0.5 (Some 0)) = 0.5 /\
  Binarize_thresholds 0.5 (Some 0) = Binarize_thresholds 0.5 None /\
  forall offset', ~ offset (Binarize_thresholds 0.5 offset') == 0.
Proof.
  destruct (Binarize_init_offset_zero 0.5 0 0 0 0 Infinity) as (H1 & H2 & H3).
  split; [exact H1|]. split; [exact H2|]. apply H3. reflexivity.
Defined.

(** ** Binarize: one track *)

Lemma argmin_from_spec (l : list Q) :
  forall (seen : list Q) (best_idx : nat) (best : Q),
    nth_error seen best_idx = Some best ->
    (forall j x, nth_error seen j = Some x -> best <= x) ->
    (forall j x, (j < best_idx)%nat -> nth_error seen j = Some x -> best < x) ->
    first_min_in (seen ++ l) 0 (argmin_from best_idx best (length seen) l).
Proof.
  induction l as [|x l IH]; intros seen best_idx best Hbest Hle Hlt; simpl.
  - rewrite app_nil_r.
    assert (best_idx < length seen)%nat by (apply nth_error_Some; congruence).
    split; [lia|]. exists best. split; [exact Hbest|]. split.
    + intros j y _. apply Hle.
    + intros j y [_ Hj]. now apply Hlt.
  - replace (seen ++ x :: l) with ((seen ++ [x]) ++ l) by now rewrite <- app_assoc.
    replace (S (length seen)) with (length (seen ++ [x]))
      by (rewrite length_app; simpl; lia).
    assert (Hidx : (best_idx < length seen)%nat) by (apply nth_error_Some; congruence).
    destruct (Qltb x best) eqn:E.
    + apply Qltb_true in E. apply IH.
      * rewrite nth_error_app2, Nat.sub_diag by lia. reflexivity.
      * intros j y Hj. destruct (Nat.lt_ge_cases j (length seen)) as [Hin|Hout].
        -- rewrite nth_error_app1 in Hj by exact Hin. apply Hle in Hj. lra.
        -- rewrite nth_error_app2 in Hj by exact Hout.
           destruct (j - length seen)%nat as [|n]; simpl in Hj.
           ++ injection Hj as <-. apply Qle_refl.
           ++ now destruct n.
      * intros j y Hj Hy. rewrite nth_error_app1 in Hy by exact Hj.
        apply Hle in Hy. lra.
    + apply Qltb_false in E. apply IH.
      * rewrite nth_error_app1 by exact Hidx. exact Hbest.
      * intros j y Hj. destruct (Nat.lt_ge_cases j (length seen)) as [Hin|Hout].
        -- rewrite nth_error_app1 in Hj by exact Hin. now apply Hle in Hj.
        -- rewrite nth_error_app2 in Hj by exact Hout.
           destruct (j - length seen)%nat as [|n]; simpl in Hj.
           ++ injection Hj as <-. exact E.
           ++ now destruct n.
      * intros j y Hj Hy. rewrite nth_error_app1 in Hy by lia.
        now apply Hlt with j.
Qed.

Lemma argmin_spec (l : list Q) :
  l <> [] -> exists i, argmin l = Ok i /\ first_min_in l 0 i.
Proof.
  destruct l as [|x l]; [congruence|]. intros _.
  exists (argmin_from 0 x 1 l). split; [reflexivity|].
  apply (argmin_from_spec l [x] 0%nat x).
  - reflexivity.
  - intros [|[|j]] y Hj; simpl in Hj; try discriminate.
    injection Hj as <-. apply Qle_refl.
  - intros j y Hj. lia.
Qed.

Lemma first_min_in_skipn (l : list Q) (lo i : nat) :
  first_min_in (skipn lo l) 0 i -> first_min_in l lo (lo + i).
Proof.
  intros [[_ Hi] (m & Hm & Hle & Hlt)].
  rewrite length_skipn in Hi. split; [lia|].
  exists m. rewrite nth_error_skipn in Hm. split; [exact Hm|]. split.
  - intros j x Hj Hx. apply (Hle (j - lo)%nat x); [lia|].
    rewrite nth_error_skipn. now replace (lo + (j - lo))%nat with j by lia.
  - intros j x Hj Hx. apply (Hlt (j - lo)%nat x); [lia|].
    rewrite nth_error_skipn. now replace (lo + (j - lo))%nat with j by lia.
Qed.

Lemma step_buffers (b : Binarize) (st st' : track_state) (frame : Q * Q) :
  length (curr_scores st) = length (curr_timestamps st) ->
  binarize_step b st frame = Ok st' ->
  length (curr_scores st') = length (curr_timestamps st') /\ curr_scores st' <> [].
Proof.
  intros Hlen. destruct frame as [t y]. unfold binarize_step.
  assert (Hpush : forall s, length (curr_scores s) = length (curr_timestamps s) ->
            length (curr_scores (push_frame s t y)) = length (curr_timestamps (push_frame s t y))
            /\ curr_scores (push_frame s t y) <> []).
  { intros s Hs. simpl. rewrite !length_app, Hs. split; [reflexivity|].
    now destruct (curr_scores s). }
  destruct (is_active (bind_t st t)).
  - destruct (exceeds (t - st_start (bind_t st t)) (max_duration b)).
    + unfold split_run.
      destruct (argmin _) as [i|e]; simpl; [|discriminate].
      destruct (index _ _) as [ts|e]; simpl; [|discriminate].
      intros [= <-]. apply Hpush. simpl. now rewrite !length_skipn, Hlen.
    + destruct (Qltb y (offset b)); simpl; intros [= <-]; apply Hpush; simpl; auto.
  - destruct (Qgtb y (onset b)); simpl; intros [= <-]; apply Hpush; simpl; auto.
Qed.

Lemma reachable_buffers (b : Binarize) (st : track_state) :
  reachable b st ->
  length (curr_scores st) = length (curr_timestamps st) /\ curr_scores st <> [].
Proof.
  induction 1 as [t0 y0 t|st st' frame _ [IH _] Hstep].
  - simpl. split; [reflexivity|discriminate].
  - now apply (step_buffers b st st' frame).
Qed.

Lemma half_lt (n : nat) : (0 < n -> n / 2 < n)%nat.
Proof. intros H. apply Nat.div_lt; lia. Qed.

(** The split branch on buffers of equal, positive length. *)
Lemma split_run_spec (b : Binarize) (st : track_state) :
  length (curr_scores st) = length (curr_timestamps st) ->
  curr_scores st <> [] ->
  exists idx split_time,
    first_min_in (curr_scores st) (length (curr_scores st) / 2) idx /\
    nth_error (curr_timestamps st) idx = Some split_time /\
    split_run b st =
      Ok {| st_start := split_time;
            is_active := is_active st;
            curr_scores := skipn (S idx) (curr_scores st);
            curr_timestamps := skipn (S idx) (curr_timestamps st);
            loop_t := loop_t st;
            emitted := emitted st ++ [(st_start st - pad_onset b, split_time + pad_offset b)] |}.
Proof.
  intros Hlen Hne. unfold split_run.
  set (half := (length (curr_scores st) / 2)%nat).
  assert (Hpos : (0 < length (curr_scores st))%nat)
    by (destruct (curr_scores st); [congruence|simpl; lia]).
  assert (Hhalf : (half < length (curr_scores st))%nat) by now apply half_lt.
  destruct (argmin_spec (skipn half (curr_scores st))) as (i & Harg & Hmin).
  { intros E. apply (f_equal (@length Q)) in E. rewrite length_skipn in E.
    simpl in E. lia. }
  apply first_min_in_skipn in Hmin.
  pose proof Hmin as [[_ Hidx] _].
  destruct (nth_error (curr_timestamps st) (half + i)) as [ts|] eqn:Hts.
  2:{ apply nth_error_None in Hts. lia. }
  exists (half + i)%nat, ts. split; [exact Hmin|]. split; [exact Hts|].
  rewrite Harg. simpl. unfold index. rewrite Hts. simpl.
  replace (half + i + 1)%nat with (S (half + i)) by lia. reflexivity.
Qed.

(** C4: in any state one track's pass can be in, when the track is active
    and the run is longer than [max_duration], the iteration succeeds; the
    split index is the first index of a least score among the buffer indices
    from [L / 2] on; the region from [start - pad_onset] to the timestamp at
    that index plus [pad_offset] is emitted; [start] becomes that timestamp;
    the buffers lose their entries up to that index included (and gain the
    current frame); the track stays active. *)
Theorem binarize_step_split (b : Binarize) (st : track_state) (t y m : Q) :
  reachable b st ->
  is_active st = true ->
  max_duration b = Finite m ->
  m < t - st_start st ->
  exists idx split_time,
    first_min_in (curr_scores st) (length (curr_scores st) / 2) idx /\
    nth_error (curr_timestamps st) idx = Some split_time /\
    binarize_step b st (t, y) =
      Ok {| st_start := split_time;
            is_active := true;
            curr_scores := skipn (S idx) (curr_scores st) ++ [y];
            curr_timestamps := skipn (S idx) (curr_timestamps st) ++ [t];
            loop_t := Some t;
            emitted := emitted st ++ [(st_start st - pad_onset b, split_time + pad_offset b)] |}.
Proof.
  intros Hreach Hact Hmax Hlong.
  destruct (reachable_buffers b st Hreach) as [Hlen Hne].
  destruct (split_run_spec b (bind_t st t)) as (idx & ts & Hmin & Hts & Hsplit);
    [exact Hlen|exact Hne|].
  exists idx, ts. split; [exact Hmin|]. split; [exact Hts|].
  unfold binarize_step.
  replace (is_active (bind_t st t)) with true by (symmetry; exact Hact).
  rewrite Hmax. simpl exceeds.
  apply Qgtb_true in Hlong. simpl st_start. rewrite Hlong, Hsplit.
  simpl. rewrite Hact. reflexivity.
Qed.

Lemma binarize_step_split_witness :
  let b := Binarize_init 0.5 None 0 0 0 0 (Finite 3.5) in
  let st := {| st_start := 0; is_active := true;
               curr_scores := [0.9; 0.6; 0.6; 0.8]; curr_timestamps := [0; 1; 2; 3];
               loop_t := Some 3; emitted := [] |} in
  exists idx split_time,
    first_min_in (curr_scores st) (length (curr_scores st) / 2) idx /\
    nth_error (curr_timestamps st) idx = Some split_time /\
    binarize_step b st (4, 0.7) =
      Ok {| st_start := split_time;
            is_active := true;
            curr_scores := skipn (S idx) (curr_scores st) ++ [0.7];
            curr_timestamps := skipn (S idx) (curr_timestamps st) ++ [4];
            loop_t := Some 4;
            emitted := emitted st ++ [(st_start st - pad_onset b, split_time + pad_offset b)] |}.
Proof.
  cbv zeta.
  apply (binarize_step_split (Binarize_init 0.5 None 0 0 0 0 (Finite 3.5)) _ 4 0.7 3.5).
  - eapply reach_step with (frame := (3, 0.8)).
    eapply reach_step with (frame := (2, 0.6)).
    eapply reach_step with (frame := (1, 0.6)).
    apply (reach_init _ 0 0.9 None).
    all: vm_compute; reflexivity.
  - reflexivity.
  - reflexivity.
  - reflexivity.
Defined.

Lemma binarize_step_total (b : Binarize) (st : track_state) (t y : Q) :
  buffers_ok st ->
  exists st', binarize_step b st (t, y) = Ok st' /\ buffers_ok st' /\ loop_t st' = Some t.
Proof.
  intros [Hlen Hne].
  assert (Hok : exists st', binarize_step b st (t, y) = Ok st' /\ loop_t st' = Some t).
  { unfold binarize_step.
    destruct (is_active (bind_t st t)).
    - destruct (exceeds (t - st_start (bind_t st t)) (max_duration b)).
      + destruct (split_run_spec b (bind_t st t) Hlen Hne) as (idx & ts & _ & _ & ->).
        simpl. eexists. split; reflexivity.
      + destruct (Qltb y (offset b)); simpl; eexists; split; reflexivity.
    - destruct (Qgtb y (onset b)); simpl; eexists; split; reflexivity. }
  destruct Hok as (st' & Hstep & Ht). exists st'.
  split; [exact Hstep|]. split; [|exact Ht].
  now apply (step_buffers b st st' (t, y)).
Qed.

Lemma last_cons {A : Type} (l : list A) :
  forall x d, last (x :: l) d = last l x.
Proof.
  induction l as [|y l IH]; intros x d; [reflexivity|].
  change (last (x :: y :: l) d) with (last (y :: l) d).
  rewrite (IH y d), (IH y x). reflexivity.
Qed.

Lemma binarize_loop_total (b : Binarize) (frames : list (Q * Q)) :
  forall st,
    buffers_ok st ->
    exists st',
      binarize_loop b frames st = Ok st' /\ buffers_ok st' /\
      loop_t st' = last (map (fun f => Some (fst f)) frames) (loop_t st).
Proof.
  induction frames as [|[t y] frames IH]; intros st Hst.
  - exists st. repeat split; try apply Hst. 
  - destruct (binarize_step_total b st t y Hst) as (st1 & Hstep & Hst1 & Ht).
    destruct (IH st1 Hst1) as (st' & Hloop & Hst' & Ht').
    exists st'. split; [|split; [exact Hst'|]].
    + cbn [binarize_loop]. rewrite Hstep. exact Hloop.
    + rewrite Ht', Ht. cbn [map fst]. now rewrite last_cons.
Qed.

Lemma track_init_buffers (b : Binarize) (t0 y0 : Q) (t : option Q) :
  buffers_ok (track_init b t0 y0 t).
Proof. split; [reflexivity|discriminate]. Qed.

(** On a grid of at least two frames the pass over a column returns, and
    a track left active gets its final region, up to the last timestamp. *)
Lemma binarize_track_final (b : Binarize) (t0 t1 y0 y1 : Q) (times k_scores : list Q)
  (t : option Q) :
  length times = length k_scores ->
  exists st,
    binarize_loop b (combine (t1 :: times) (y1 :: k_scores)) (track_init b t0 y0 t) = Ok st /\
    binarize_track b (t0 :: t1 :: times) t (y0 :: y1 :: k_scores)
    = Ok (if is_active st
          then emitted st ++ [(st_start st - pad_onset b, last times t1 + pad_offset b)]
          else emitted st,
          Some (last times t1)).
Proof.
  intros Hlen.
  destruct (binarize_loop_total b (combine (t1 :: times) (y1 :: k_scores))
              (track_init b t0 y0 t) (track_init_buffers b t0 y0 t))
    as (st & Hloop & _ & Ht).
  exists st. split; [exact Hloop|].
  assert (Hlast : loop_t st = Some (last times t1)).
  { rewrite Ht. clear - Hlen. cbn [combine map fst]. rewrite last_cons.
    revert t1 k_scores Hlen.
    induction times as [|t2 times IH]; intros t1 [|y2 k_scores] Hlen;
      simpl in Hlen; try discriminate; [reflexivity|].
    injection Hlen as Hlen. cbn [combine map fst]. rewrite last_cons.
    rewrite (IH t2 k_scores Hlen). now rewrite last_cons. }
  unfold binarize_track. cbn [index nth_error bind tl]. rewrite Hloop. cbn [bind].
  unfold final_region. rewrite Hlast.
  destruct (is_active st); reflexivity.
Qed.

Lemma binarize_tracks_total (b : Binarize) (scores : SlidingWindowFeature) :
  (2 <= length (timestamps scores))%nat ->
  forall columns k t active,
    Forall (fun k_scores => length k_scores = length (timestamps scores)) columns ->
    match labels scores with
    | None => True
    | Some names => (k + length columns <= length names)%nat
    end ->
    exists a, binarize_tracks b scores k columns t active = Ok a.
Proof.
  intros Hframes.
  induction columns as [|k_scores columns IH]; intros k t active Hshape Hnames.
  - exists active. reflexivity.
  - apply Forall_cons_iff in Hshape. destruct Hshape as [Hcol Hshape].
    cbn [binarize_tracks].
    assert (Hlabel : exists l, track_label scores k = Ok l).
    { unfold track_label. destruct (labels scores) as [names|]; [|eauto].
      unfold index. destruct (nth_error names k) eqn:E; [simpl; eauto|].
      apply nth_error_None in E. simpl in Hnames. lia. }
    destruct Hlabel as [l ->]. cbn [bind].
    destruct (timestamps scores) as [|t0 [|t1 times]] eqn:Htimes;
      simpl in Hframes; try lia.
    destruct k_scores as [|y0 [|y1 ys]]; simpl in Hcol; try discriminate.
    injection Hcol as Hcol.
    destruct (binarize_track_final b t0 t1 y0 y1 times ys t (eq_sym Hcol))
      as (st & _ & ->).
    cbn [bind]. apply IH; [exact Hshape|].
    destruct (labels scores); [simpl in Hnames; lia|exact I].
Qed.

Lemma binarize_raw_total (b : Binarize) (scores : SlidingWindowFeature) :
  (2 <= length (timestamps scores))%nat ->
  grid_shaped scores -> labels_cover scores ->
  exists active, binarize_raw b scores = Ok active.
Proof.
  intros Hframes Hshape Hnames. unfold binarize_raw.
  apply binarize_tracks_total; [exact Hframes|exact Hshape|].
  unfold labels_cover in Hnames. now destruct (labels scores).
Qed.

Lemma merge_enabled_true (pad_onset' pad_offset' min_duration_off' : Q) :
  merge_enabled pad_onset' pad_offset' min_duration_off' = true
  <-> 0 < pad_onset' \/ 0 < pad_offset' \/ 0 < min_duration_off'.
Proof.
  unfold merge_enabled. rewrite !orb_true_iff, !Qgtb_true. tauto.
Qed.

(** ** Binarize: the whole call *)

(** The configuration check of lines 243-246, where the thresholding pass
    completes: when the merge step is enabled (a positive [pad_onset],
    [pad_offset] or [min_duration_off]) and [max_duration] is finite,
    [Binarize.__call__] returns nothing on any grid, and the error is the
    configuration error ([NotImplementedError]) whenever the pass itself
    completes, as it does on every grid of at least two frames.  When
    [max_duration] is infinite the same parameters are accepted, and the
    result is the support merge with collar [min_duration_off], followed by
    the short-segment filter. *)
Theorem Binarize_call_merge_config (b : Binarize) (scores : SlidingWindowFeature) :
  0 < pad_onset b \/ 0 < pad_offset b \/ 0 < min_duration_off b ->
  ((exists m, max_duration b = Finite m) ->
   (exists e, Binarize_call b scores = Raise e) /\
   ((exists active, binarize_raw b scores = Ok active) ->
    Binarize_call b scores = Raise NotImplementedError) /\
   ((2 <= length (timestamps scores))%nat -> grid_shaped scores -> labels_cover scores ->
    Binarize_call b scores = Raise NotImplementedError)) /\
  (max_duration b = Infinity ->
   forall active,
     binarize_raw b scores = Ok active ->
     Binarize_call b scores
     = Ok (drop_short (min_duration_on b)
             (annotation_support (min_duration_off b) active))).
Proof.
  intros Hmerge. apply merge_enabled_true in Hmerge.
  unfold Binarize_call. rewrite Hmerge. split.
  - intros [m Hm]. rewrite Hm. cbn [is_finite].
    assert (Hraw : (exists active, binarize_raw b scores = Ok active) ->
                   (active <- binarize_raw b scores ;;
                    active0 <- Raise NotImplementedError ;;
                    Ok (drop_short (min_duration_on b) active0))
                   = Raise NotImplementedError).
    { intros [active ->]. reflexivity. }
    split; [|split].
    + destruct (binarize_raw b scores) as [active|e]; simpl; eauto.
    + exact Hraw.
    + intros Hframes Hshape Hnames. apply Hraw.
      now apply binarize_raw_total.
  - intros Hm active Hraw. rewrite Hm, Hraw. reflexivity.
Qed.

Lemma Binarize_call_merge_config_witness :
  let scores := mkGrid [0; 1; 2] [[0.9; 0.9; 0.1]] None in
  Binarize_call (Binarize_init 0.5 None 0 0 1 0 (Finite 30)) scores
  = Raise NotImplementedError /\
  Binarize_call (Binarize_init 0.5 None 0 0 1 0 Infinity) scores
  = Ok [mkEntry (-1, 2) (TrackGen 0) (LabelIdx 0)].
Proof.
  cbv zeta. split.
  - apply (Binarize_call_merge_config (Binarize_init 0.5 None 0 0 1 0 (Finite 30))).
    + left. reflexivity.
    + exists 30. reflexivity.
    + simpl. lia.
    + repeat constructor.
    + exact I.
  - apply (Binarize_call_merge_config (Binarize_init 0.5 None 0 0 1 0 Infinity)
             (mkGrid [0; 1; 2] [[0.9; 0.9; 0.1]] None)
             (or_introl (eq_refl : (0 ?= 1) = Lt)))
      with (active := [mkEntry (0 - 1, 2 + 0) (TrackIdx 0) (LabelIdx 0)]).
    + reflexivity.
    + vm_compute. reflexivity.
Defined.

(** C8, at the input where the code parts from it: on a grid of exactly
    one frame whose first track is active, [t] was never bound when line 238
    reads it, and the call raises instead of emitting the final region. *)
Theorem Binarize_call_single_frame (b : Binarize) (t0 y0 : Q) (columns : list (list Q)) :
  onset b < y0 ->
  Binarize_call b (mkGrid [t0] ([y0] :: columns) None) = Raise NameError.
Proof.
  intros Hact. apply Qgtb_true in Hact.
  unfold Binarize_call, binarize_raw. cbn [data_T binarize_tracks].
  unfold track_label, binarize_track. cbn [labels timestamps index nth_error bind tl combine].
  cbn [binarize_loop bind]. unfold final_region. cbn [track_init is_active loop_t].
  rewrite Hact. reflexivity.
Qed.

Lemma Binarize_call_single_frame_witness :
  Binarize_call (Binarize_thresholds 0.5 None) (mkGrid [0.5] [[0.9]] None) = Raise NameError.
Proof.
  apply (Binarize_call_single_frame (Binarize_thresholds 0.5 None) 0.5 0.9 []).
  reflexivity.
Defined.

(** ** Sorting by segment *)

Lemma seg_leb_true (a b : Q * Q) : seg_leb a b = true -> fst a <= fst b.
Proof.
  unfold seg_leb. rewrite orb_true_iff, andb_true_iff, Qltb_true, Qeq_bool_iff.
  intros [H|[H _]]; lra.
Qed.

Lemma seg_leb_false (a b : Q * Q) : seg_leb a b = false -> fst b <= fst a.
Proof.
  unfold seg_leb. rewrite orb_false_iff, Qltb_false. tauto.
Qed.

Section Sorting.

Context {A : Type} (key : A -> Q * Q).

Let by_start (x y : A) : Prop := fst (key x) <= fst (key y).

Lemma insert_by_Forall (P : A -> Prop) (x : A) (l : list A) :
  Forall P (insert_by key x l) <-> P x /\ Forall P l.
Proof.
  induction l as [|y l IH]; simpl.
  - split; [intros H; now inversion H|intros [H _]; now constructor].
  - destruct (seg_leb (key x) (key y)).
    + apply Forall_cons_iff.
    + rewrite !Forall_cons_iff, IH. tauto.
Qed.

Lemma sort_by_Forall (P : A -> Prop) (l : list A) :
  Forall P (sort_by key l) <-> Forall P l.
Proof.
  induction l as [|x l IH]; simpl; [reflexivity|].
  unfold sort_by in *. simpl. rewrite insert_by_Forall, IH, Forall_cons_iff.
  reflexivity.
Qed.

Lemma insert_by_sorted (x : A) (l : list A) :
  StronglySorted by_start l -> StronglySorted by_start (insert_by key x l).
Proof.
  induction 1 as [|y l Hl IH Hy]; simpl.
  - constructor; constructor.
  - destruct (seg_leb (key x) (key y)) eqn:E.
    + apply seg_leb_true in E. constructor.
      * now constructor.
      * constructor; [exact E|].
        eapply Forall_impl; [|exact Hy].
        intros z Hz. unfold by_start in *. lra.
    + apply seg_leb_false in E. constructor; [exact IH|].
      apply insert_by_Forall. split; [exact E|exact Hy].
Qed.

Lemma sort_by_sorted (l : list A) : StronglySorted by_start (sort_by key l).
Proof.
  induction l as [|x l IH]; [constructor|].
  apply insert_by_sorted. exact IH.
Qed.

(** A property of all pairs that does not depend on their order survives
    the sort. *)
Variable S : A -> A -> Prop.
Hypothesis S_sym : forall x y, S x y -> S y x.

Lemma insert_by_pairs (x : A) (l : list A) :
  Forall (S x) l -> ForallOrdPairs S l -> ForallOrdPairs S (insert_by key x l).
Proof.
  intros Hx Hl. induction Hl as [|y l Hy Hl IH]; simpl.
  - constructor; constructor.
  - destruct (seg_leb (key x) (key y)).
    + constructor; [exact Hx|]. now constructor.
    + apply Forall_cons_iff in Hx. destruct Hx as [Hxy Hx].
      constructor.
      * apply insert_by_Forall. split; [now apply S_sym|exact Hy].
      * now apply IH.
Qed.

Lemma sort_by_pairs (l : list A) :
  ForallOrdPairs S l -> ForallOrdPairs S (sort_by key l).
Proof.
  induction 1 as [|x l Hx Hl IH]; [constructor|].
  apply insert_by_pairs; [|exact IH].
  now apply sort_by_Forall.
Qed.

End Sorting.

Lemma filter_pairs {A : Type} (S : A -> A -> Prop) (f : A -> bool) (l : list A) :
  ForallOrdPairs S l -> ForallOrdPairs S (filter f l).
Proof.
  induction 1 as [|x l Hx Hl IH]; simpl; [constructor|].
  destruct (f x); [|exact IH].
  constructor; [|exact IH].
  apply Forall_forall. intros y Hy. apply filter_In in Hy.
  rewrite Forall_forall in Hx. now apply Hx.
Qed.

Lemma sorted_map_pairs {A B : Type} (f : A -> B) (R : B -> B -> Prop) (l : list A) :
  StronglySorted R (map f l) -> ForallOrdPairs (fun x y => R (f x) (f y)) l.
Proof.
  induction l as [|x l IH]; simpl; intros H; [constructor|].
  apply StronglySorted_inv in H. destruct H as [Hl Hx].
  constructor; [|now apply IH].
  exact (proj1 (Forall_map f (R (f x)) l) Hx).
Qed.

Lemma map_pairs {A B : Type} (f : A -> B) (R : B -> B -> Prop) (l : list A) :
  ForallOrdPairs (fun x y => R (f x) (f y)) l -> ForallOrdPairs R (map f l).
Proof.
  induction 1 as [|x l Hx Hl IH]; simpl; constructor; [|exact IH].
  exact (proj2 (Forall_map f (R (f x)) l) Hx).
Qed.

Lemma pairs_impl {A : Type} (R S : A -> A -> Prop) (l : list A) :
  (forall x y, R x y -> S x y) -> ForallOrdPairs R l -> ForallOrdPairs S l.
Proof.
  intros HRS. induction 1 as [|x l Hx Hl IH]; constructor; [|exact IH].
  eapply Forall_impl; [|exact Hx]. apply HRS.
Qed.

(** ** The support/collar merge *)

Section Support.

Variable collar : Q.

Lemma support_sweep_gap (rest : list (Q * Q)) :
  forall current,
    StronglySorted (fun a b => fst a <= fst b) rest ->
    Forall (fun s => fst current <= fst s) rest ->
    StronglySorted (gap_after collar) (support_sweep collar current rest) /\
    Forall (fun o => fst current <= fst o) (support_sweep collar current rest).
Proof.
  induction rest as [|next rest IH]; intros current Hsorted Hcur; simpl.
  - split; constructor; try constructor. apply Qle_refl.
  - apply StronglySorted_inv in Hsorted. destruct Hsorted as [Hsorted Hnext].
    apply Forall_cons_iff in Hcur. destruct Hcur as [Hcn Hcur].
    destruct (Qltb (fst next - snd current) collar) eqn:E.
    + assert (Hmin : fst current <= fst (union current next))
        by (apply Q.min_glb; [apply Qle_refl|exact Hcn]).
      destruct (IH (union current next) Hsorted) as [Hgap Hout].
      { eapply Forall_impl; [|exact Hcur]. intros s Hs.
        pose proof (Q.le_min_l (fst current) (fst next)).
        unfold union; cbn [fst]. cbv beta in Hs. lra. }
      split; [exact Hgap|].
      eapply Forall_impl; [|exact Hout]. intros o Ho. cbv beta in Ho. lra.
    + apply Qltb_false in E.
      destruct (IH next Hsorted Hnext) as [Hgap Hout].
      split.
      * constructor; [exact Hgap|].
        eapply Forall_impl; [|exact Hout]. intros o Ho.
        unfold gap_after. cbv beta in Ho. lra.
      * constructor; [apply Qle_refl|].
        eapply Forall_impl; [|exact Hout]. intros o Ho. cbv beta in Ho. lra.
Qed.

Lemma timeline_support_gap (segments : list (Q * Q)) :
  StronglySorted (gap_after collar) (timeline_support collar segments).
Proof.
  unfold timeline_support.
  pose proof (sort_by_sorted (fun s => s) segments) as Hsorted.
  destruct (sort_by (fun s => s) segments) as [|first rest]; [constructor|].
  apply StronglySorted_inv in Hsorted. destruct Hsorted as [Hrest Hfirst].
  now apply support_sweep_gap.
Qed.

(** What holds of every interval and of the union of two holds of the
    merged intervals. *)
Variable P : Q * Q -> Prop.
Hypothesis P_union : forall a b, P a -> P b -> P (union a b).

Lemma support_sweep_Forall (rest : list (Q * Q)) :
  forall current,
    P current -> Forall P rest -> Forall P (support_sweep collar current rest).
Proof.
  induction rest as [|next rest IH]; intros current Hc Hrest; simpl.
  - now constructor.
  - apply Forall_cons_iff in Hrest. destruct Hrest as [Hn Hrest].
    destruct (Qltb (fst next - snd current) collar).
    + apply IH; [now apply P_union|exact Hrest].
    + constructor; [exact Hc|]. now apply IH.
Qed.

Lemma timeline_support_Forall (segments : list (Q * Q)) :
  Forall P segments -> Forall P (timeline_support collar segments).
Proof.
  intros H. apply (sort_by_Forall (fun s => s)) in H.
  unfold timeline_support.
  destruct (sort_by (fun s => s) segments) as [|first rest]; [constructor|].
  apply Forall_cons_iff in H. destruct H as [Hf Hr].
  now apply support_sweep_Forall.
Qed.

End Support.

(** ** Annotations *)

Lemma annotation_set_Forall (P : entry -> Prop) (active : Annotation)
  (region : Q * Q) (k : track) (l : label) :
  Forall P active -> P (mkEntry region k l) ->
  Forall P (annotation_set active region k l).
Proof.
  intros Ha Hnew. unfold annotation_set. apply Forall_app. split.
  - apply Forall_forall. intros e He. apply filter_In in He.
    rewrite Forall_forall in Ha. now apply Ha.
  - now constructor.
Qed.

Lemma annotation_set_In (active : Annotation) (region : Q * Q) (k : track) (l : label) :
  In (mkEntry region k l) (annotation_set active region k l).
Proof. unfold annotation_set. apply in_or_app. right. now left. Qed.

Lemma label_eqb_refl (l : label) : label_eqb l l = true.
Proof. destruct l; simpl; [apply Nat.eqb_refl|apply String.eqb_refl]. Qed.

Lemma number_tracks_segments (segs : list ((Q * Q) * label)) :
  map e_segment (number_tracks segs) = map fst segs.
Proof.
  unfold number_tracks. rewrite map_map. cbn [e_segment].
  generalize 0%nat. induction segs as [|s segs IH]; intros n; simpl; [reflexivity|].
  now rewrite IH.
Qed.

Lemma annotation_support_segments (collar : Q) (a : Annotation) :
  map e_segment (annotation_support collar a)
  = flat_map (fun l => timeline_support collar (label_timeline a l)) (labels_of a).
Proof.
  unfold annotation_support. rewrite number_tracks_segments.
  induction (labels_of a) as [|l ls IH]; simpl; [reflexivity|].
  rewrite map_app, IH, map_map. simpl. now rewrite map_id.
Qed.

Section OneLabel.

Variable L : label.

Lemma labels_of_one (a : Annotation) :
  Forall (fun e => e_label e = L) a -> labels_of a = [] \/ labels_of a = [L].
Proof.
  induction 1 as [|e a He Ha IH]; simpl; [now left|]. right.
  rewrite He. destruct IH as [-> | ->]; simpl; [reflexivity|].
  now rewrite label_eqb_refl.
Qed.

Lemma label_timeline_one (a : Annotation) :
  Forall (fun e => e_label e = L) a -> label_timeline a L = map e_segment a.
Proof.
  unfold label_timeline. induction 1 as [|e a He Ha IH]; simpl; [reflexivity|].
  now rewrite He, label_eqb_refl, <- IH.
Qed.

Lemma annotation_support_one (collar : Q) (a : Annotation) :
  Forall (fun e => e_label e = L) a ->
  map e_segment (annotation_support collar a)
  = timeline_support collar (map e_segment a).
Proof.
  intros Ha. rewrite annotation_support_segments.
  destruct a as [|e a]; [reflexivity|].
  destruct (labels_of_one _ Ha) as [E|E]; [discriminate|].
  rewrite E. simpl flat_map. rewrite app_nil_r. now rewrite label_timeline_one.
Qed.

End OneLabel.

Lemma pad_intervals_label (pad_onset' pad_offset' : Q) (vad_arr : list (Q * Q)) :
  forall k active,
    Forall (fun e => e_label e = LabelIdx 1) active ->
    Forall (fun e => e_label e = LabelIdx 1)
           (pad_intervals pad_onset' pad_offset' k vad_arr active).
Proof.
  induction vad_arr as [|vad_t vad_arr IH]; intros k active Ha; simpl; [exact Ha|].
  apply IH. now apply annotation_set_Forall.
Qed.

Lemma drop_short_pairs (S : entry -> entry -> Prop) (min_duration_on' : Q) (a : Annotation) :
  ForallOrdPairs S a -> ForallOrdPairs S (drop_short min_duration_on' a).
Proof.
  intros H. unfold drop_short. destruct (Qgtb min_duration_on' 0); [|exact H].
  now apply filter_pairs.
Qed.

Lemma drop_short_Forall (P : entry -> Prop) (min_duration_on' : Q) (a : Annotation) :
  Forall P a -> Forall P (drop_short min_duration_on' a).
Proof.
  intros H. unfold drop_short. destruct (Qgtb min_duration_on' 0); [|exact H].
  apply Forall_forall. intros e He. apply filter_In in He.
  rewrite Forall_forall in H. now apply H.
Qed.

Lemma separated_sym (collar : Q) (a b : Q * Q) :
  separated collar a b -> separated collar b a.
Proof. unfold separated. tauto. Qed.

Lemma separated_apart (collar : Q) (a b : Q * Q) :
  0 <= collar -> separated collar a b -> ~ overlapping a b.
Proof.
  unfold separated, gap_after, overlapping. intros Hc [H|H] [H1 H2]; lra.
Qed.

(** ** IntervalMerger *)

(** C7 as the specification states it fails: with no padding and no collar
    the merge is skipped (line 264), and two overlapping intervals are both
    returned. *)
Lemma merge_vad_overlap_counterexample :
  merge_vad [(0, 5); (3, 8)] 0 0 0 0 = [(0, 5); (3, 8)] /\
  overlapping (0, 5) (3, 8) /\
  ~ ForallOrdPairs (separated 0) (merge_vad [(0, 5); (3, 8)] 0 0 0 0).
Proof.
  split; [vm_compute; reflexivity|]. split; [split; reflexivity|].
  replace (merge_vad [(0, 5); (3, 8)] 0 0 0 0) with [(0, 5); (3, 8)]
    by (vm_compute; reflexivity).
  intros H. inversion H as [|a l Ha Hl]; subst.
  apply Forall_inv in Ha. unfold separated, gap_after in Ha. simpl in Ha.
  destruct Ha as [Ha|Ha]; apply Qle_bool_iff in Ha; discriminate.
Qed.

(** C7, amended: [merge_vad] pads, and applies the support merge with
    collar [min_duration_off] only when [pad_onset], [pad_offset] or
    [min_duration_off] is positive.  Then any two intervals of its output are
    at least [min_duration_off] apart, so that they do not overlap when
    [min_duration_off >= 0].  Otherwise the output is the padded input, less
    the short intervals, in the order of the segments. *)
Theorem merge_vad_separated (vad_arr : list (Q * Q))
  (pad_onset' pad_offset' min_duration_off' min_duration_on' : Q) :
  let out := merge_vad vad_arr pad_onset' pad_offset' min_duration_off' min_duration_on' in
  (0 < pad_onset' \/ 0 < pad_offset' \/ 0 < min_duration_off' ->
   ForallOrdPairs (separated min_duration_off') out /\
   (0 <= min_duration_off' -> ForallOrdPairs (fun a b => ~ overlapping a b) out)) /\
  (pad_onset' <= 0 -> pad_offset' <= 0 -> min_duration_off' <= 0 ->
   out = map e_segment
           (itertracks (drop_short min_duration_on'
                          (pad_intervals pad_onset' pad_offset' 0 vad_arr [])))).
Proof.
  cbv zeta. split.
  - intros Hmerge. apply merge_enabled_true in Hmerge.
    assert (Hsep : ForallOrdPairs (separated min_duration_off')
                     (merge_vad vad_arr pad_onset' pad_offset' min_duration_off'
                                min_duration_on')).
    { unfold merge_vad. rewrite Hmerge. unfold itertracks.
      apply map_pairs, sort_by_pairs; [intros x y; apply separated_sym|].
      apply drop_short_pairs.
      apply pairs_impl with
        (R := fun x y => gap_after min_duration_off' (e_segment x) (e_segment y));
        [intros x y Hxy; now left|].
      apply sorted_map_pairs.
      rewrite (annotation_support_one (LabelIdx 1)).
      - apply timeline_support_gap.
      - apply pad_intervals_label. constructor. }
    split; [exact Hsep|].
    intros Hc. eapply pairs_impl; [|exact Hsep].
    intros a b. now apply separated_apart.
  - intros H1 H2 H3. unfold merge_vad, merge_enabled.
    apply Qgtb_false in H1, H2, H3. now rewrite H1, H2, H3.
Qed.

Lemma merge_vad_separated_witness :
  ForallOrdPairs (separated 0.2) (merge_vad [(0, 5); (5.05, 8); (9, 10)] 0 0 0.2 0) /\
  ForallOrdPairs (fun a b => ~ overlapping a b)
                 (merge_vad [(0, 5); (5.05, 8); (9, 10)] 0 0 0.2 0) /\
  merge_vad [(0, 5); (3, 8)] 0 0 0 0
  = map e_segment (itertracks (drop_short 0 (pad_intervals 0 0 0 [(0, 5); (3, 8)] []))).
Proof.
  destruct (merge_vad_separated [(0, 5); (5.05, 8); (9, 10)] 0 0 0.2 0) as [Hon _].
  destruct (merge_vad_separated [(0, 5); (3, 8)] 0 0 0 0) as [_ Hoff].
  destruct Hon as [Hsep Hdis]; [right; right; reflexivity|].
  split; [exact Hsep|]. split; [apply Hdis; discriminate|].
  apply Hoff; discriminate.
Defined.

(** ** Non-negative times *)

Lemma Forall_skipn_keep {A : Type} (P : A -> Prop) (n : nat) (l : list A) :
  Forall P l -> Forall P (skipn n l).
Proof.
  intros H. rewrite <- (firstn_skipn n l) in H.
  apply Forall_app in H. tauto.
Qed.

Lemma union_nonneg (a b : Q * Q) :
  nonneg_region a -> nonneg_region b -> nonneg_region (union a b).
Proof.
  unfold nonneg_region, union. cbn [fst snd]. intros [Ha1 Ha2] [Hb1 Hb2]. split.
  - now apply Q.min_glb.
  - pose proof (Q.le_max_l (snd a) (snd b)). lra.
Qed.

Lemma union_proper (a b : Q * Q) :
  proper_region a -> proper_region b -> proper_region (union a b).
Proof.
  unfold proper_region, union. cbn [fst snd]. intros [Ha1 Ha2] [Hb1 Hb2]. split.
  - now apply Q.min_glb.
  - pose proof (Q.le_min_l (fst a) (fst b)).
    pose proof (Q.le_max_l (snd a) (snd b)). lra.
Qed.

Lemma annotation_support_Forall (P : Q * Q -> Prop) (collar : Q) (a : Annotation) :
  (forall x y, P x -> P y -> P (union x y)) ->
  Forall (fun e => P (e_segment e)) a ->
  Forall (fun e => P (e_segment e)) (annotation_support collar a).
Proof.
  intros Hunion Ha. apply (proj1 (Forall_map e_segment P _)).
  rewrite annotation_support_segments.
  apply Forall_flat_map. apply Forall_forall. intros l _.
  apply timeline_support_Forall; [exact Hunion|].
  unfold label_timeline. apply (proj2 (Forall_map e_segment P _)).
  apply Forall_forall. intros e He. apply filter_In in He.
  rewrite Forall_forall in Ha. now apply Ha.
Qed.

Section NonNegative.

Variable b : Binarize.
Hypothesis pad_on : pad_onset b == 0.
Hypothesis pad_off : 0 <= pad_offset b.

Lemma padded_nonneg (s e : Q) :
  0 <= s -> 0 <= e -> nonneg_region (s - pad_onset b, e + pad_offset b).
Proof. unfold nonneg_region. cbn [fst snd]. intros Hs He. split; lra. Qed.

Lemma push_frame_nonneg (st : track_state) (t y : Q) :
  0 <= t -> stamps_nonneg st -> stamps_nonneg (push_frame st t y).
Proof.
  intros Ht (Hs & Hb & Hl & He). unfold stamps_nonneg. simpl.
  repeat split; auto. apply Forall_app. split; [exact Hb|now constructor].
Qed.

Lemma binarize_step_nonneg (st st' : track_state) (t y : Q) :
  0 <= t -> stamps_nonneg st ->
  binarize_step b st (t, y) = Ok st' -> stamps_nonneg st'.
Proof.
  intros Ht (Hs & Hb & Hl & He). unfold binarize_step.
  assert (Hbind : stamps_nonneg (bind_t st t)).
  { unfold stamps_nonneg. simpl. repeat split; auto. now intros x [= <-]. }
  destruct (is_active (bind_t st t)).
  - destruct (exceeds (t - st_start (bind_t st t)) (max_duration b)).
    + unfold split_run.
      destruct (argmin _) as [i|e]; cbn [bind]; [|discriminate].
      unfold index.
      destruct (nth_error (curr_timestamps (bind_t st t)) _) as [ts|] eqn:Hts;
        cbn [bind]; [|discriminate].
      intros [= <-]. apply push_frame_nonneg; [exact Ht|].
      assert (Hpos : 0 <= ts).
      { apply nth_error_In in Hts. simpl in Hts.
        rewrite Forall_forall in Hb. now apply Hb. }
      unfold stamps_nonneg. cbn [st_start curr_timestamps loop_t emitted bind_t].
      split; [exact Hpos|]. split; [now apply Forall_skipn_keep|].
      split; [now intros x [= <-]|].
      apply Forall_app. split; [exact He|].
      constructor; [|constructor]. now apply padded_nonneg.
    + destruct (Qltb y (offset b)); cbn [bind]; intros [= <-];
        apply push_frame_nonneg; try exact Ht; try exact Hbind.
      unfold stamps_nonneg. cbn [st_start curr_timestamps loop_t emitted bind_t end_run].
      split; [exact Ht|]. split; [constructor|].
      split; [now intros x [= <-]|].
      apply Forall_app. split; [exact He|].
      constructor; [|constructor]. now apply padded_nonneg.
  - destruct (Qgtb y (onset b)); cbn [bind]; intros [= <-];
      apply push_frame_nonneg; try exact Ht; try exact Hbind.
    unfold stamps_nonneg. cbn [st_start curr_timestamps loop_t emitted bind_t begin_run].
    repeat split; auto. now intros x [= <-].
Qed.

Lemma binarize_loop_nonneg (frames : list (Q * Q)) :
  forall st st',
    Forall (fun f => 0 <= fst f) frames -> stamps_nonneg st ->
    binarize_loop b frames st = Ok st' -> stamps_nonneg st'.
Proof.
  induction frames as [|[t y] frames IH]; intros st st' Hf Hst; cbn [binarize_loop].
  - now intros [= <-].
  - apply Forall_cons_iff in Hf. destruct Hf as [Ht Hf].
    destruct (binarize_step b st (t, y)) as [st1|e] eqn:Hstep; cbn [bind];
      [|discriminate].
    apply IH; [exact Hf|]. now apply (binarize_step_nonneg st st1 t y).
Qed.

Lemma combine_nonneg (times : list Q) :
  forall k_scores,
    Forall (fun t => 0 <= t) times ->
    Forall (fun f : Q * Q => 0 <= fst f) (combine times k_scores).
Proof.
  induction times as [|t times IH]; intros [|y ys] H; simpl; try constructor.
  - now apply Forall_inv in H.
  - apply IH. now apply Forall_inv_tail in H.
Qed.

Lemma binarize_track_nonneg (times k_scores : list Q) (t : option Q)
  (r : list (Q * Q) * option Q) :
  Forall (fun x => 0 <= x) times ->
  (forall x, t = Some x -> 0 <= x) ->
  binarize_track b times t k_scores = Ok r ->
  Forall nonneg_region (fst r) /\ (forall x, snd r = Some x -> 0 <= x).
Proof.
  intros Htimes Ht. unfold binarize_track.
  destruct times as [|t0 times]; [discriminate|].
  destruct k_scores as [|y0 ys]; [discriminate|].
  cbn [index nth_error bind tl].
  apply Forall_cons_iff in Htimes. destruct Htimes as [Ht0 Htimes].
  destruct (binarize_loop b (combine times ys) (track_init b t0 y0 t)) as [st|e] eqn:Hloop;
    cbn [bind]; [|discriminate].
  assert (Hst : stamps_nonneg st).
  { apply (binarize_loop_nonneg _ _ _ (combine_nonneg times ys Htimes)) in Hloop;
      [exact Hloop|].
    unfold stamps_nonneg. simpl. repeat split; auto. }
  destruct Hst as (Hs & _ & Hl & He).
  unfold final_region. destruct (is_active st).
  - destruct (loop_t st) as [x|] eqn:Hx; cbn [bind]; [|discriminate].
    intros [= <-]. cbn [fst snd]. split; [|exact Hl].
    apply Forall_app. split; [exact He|].
    constructor; [|constructor]. apply padded_nonneg; [exact Hs|now apply Hl].
  - cbn [bind]. intros [= <-]. cbn [fst snd]. split; [exact He|exact Hl].
Qed.

Lemma set_regions_nonneg (regions : list (Q * Q)) (k : nat) (l : label) :
  forall active,
    Forall nonneg_region regions ->
    Forall (fun e => nonneg_region (e_segment e)) active ->
    Forall (fun e => nonneg_region (e_segment e)) (set_regions active regions k l).
Proof.
  unfold set_regions.
  induction regions as [|r regions IH]; intros active Hr Ha; simpl; [exact Ha|].
  apply Forall_cons_iff in Hr. destruct Hr as [Hr Hrs].
  apply IH; [exact Hrs|]. now apply annotation_set_Forall.
Qed.

Lemma binarize_tracks_nonneg (scores : SlidingWindowFeature) :
  Forall (fun t => 0 <= t) (timestamps scores) ->
  forall columns k t active a,
    (forall x, t = Some x -> 0 <= x) ->
    Forall (fun e => nonneg_region (e_segment e)) active ->
    binarize_tracks b scores k columns t active = Ok a ->
    Forall (fun e => nonneg_region (e_segment e)) a.
Proof.
  intros Htimes.
  induction columns as [|k_scores columns IH]; intros k t active a Ht Ha;
    cbn [binarize_tracks].
  - now intros [= <-].
  - destruct (track_label scores k) as [l|e]; cbn [bind]; [|discriminate].
    destruct (binarize_track b (timestamps scores) t k_scores) as [r|e] eqn:Htrack;
      cbn [bind]; [|discriminate].
    destruct (binarize_track_nonneg _ _ _ _ Htimes Ht Htrack) as [Hr Ht'].
    apply IH; [exact Ht'|]. now apply set_regions_nonneg.
Qed.

Lemma Binarize_call_nonneg (scores : SlidingWindowFeature) (active : Annotation) :
  Forall (fun t => 0 <= t) (timestamps scores) ->
  Binarize_call b scores = Ok active ->
  Forall (fun e => nonneg_region (e_segment e)) active.
Proof.
  intros Htimes. unfold Binarize_call.
  destruct (binarize_raw b scores) as [raw|e] eqn:Hraw; cbn [bind]; [|discriminate].
  assert (Hnn : Forall (fun e => nonneg_region (e_segment e)) raw).
  { unfold binarize_raw in Hraw.
    apply (binarize_tracks_nonneg scores Htimes _ _ _ _ _) in Hraw;
      [exact Hraw|discriminate|constructor]. }
  destruct (merge_enabled _ _ _).
  - destruct (is_finite (max_duration b)); cbn [bind]; [discriminate|].
    intros [= <-]. apply drop_short_Forall.
    apply annotation_support_Forall; [apply union_nonneg|exact Hnn].
  - cbn [bind]. intros [= <-]. now apply drop_short_Forall.
Qed.

End NonNegative.

Lemma pad_intervals_Forall (P : Q * Q -> Prop) (pad_onset' pad_offset' : Q)
  (vad_arr : list (Q * Q)) :
  Forall (fun v => P (fst v - pad_onset', snd v + pad_offset')) vad_arr ->
  forall k active,
    Forall (fun e => P (e_segment e)) active ->
    Forall (fun e => P (e_segment e))
           (pad_intervals pad_onset' pad_offset' k vad_arr active).
Proof.
  induction 1 as [|vad_t vad_arr Hv Hvs IH]; intros k active Ha; simpl; [exact Ha|].
  apply IH. now apply annotation_set_Forall.
Qed.

Lemma merge_vad_proper (vad_arr : list (Q * Q))
  (pad_onset' pad_offset' min_duration_off' min_duration_on' : Q) :
  pad_onset' == 0 -> 0 <= pad_offset' ->
  Forall proper_region vad_arr ->
  Forall proper_region
         (merge_vad vad_arr pad_onset' pad_offset' min_duration_off' min_duration_on').
Proof.
  intros Hon Hoff Hin. unfold merge_vad, itertracks.
  apply (proj2 (Forall_map e_segment proper_region _)).
  apply sort_by_Forall, drop_short_Forall.
  assert (Hpad : Forall (fun e => proper_region (e_segment e))
                        (pad_intervals pad_onset' pad_offset' 0 vad_arr [])).
  { apply pad_intervals_Forall; [|constructor].
    eapply Forall_impl; [|exact Hin].
    intros v [H1 H2]. unfold proper_region. cbn [fst snd]. split; lra. }
  destruct (merge_enabled _ _ _); [|exact Hpad].
  apply annotation_support_Forall; [apply union_proper|exact Hpad].
Qed.

(** C5 as the specification states it fails: with [pad_onset = 1] the run
    that starts at the first frame, at time 0, gives a segment that starts at
    time -1. *)
Lemma produced_segments_counterexample :
  let scores := mkGrid [0; 1] [[0.9; 0.1]] None in
  StronglySorted Qlt (timestamps scores) /\
  Forall (fun t => 0 <= t) (timestamps scores) /\
  exists e,
    Binarize_call (Binarize_init 0.5 None 0 0 1 0 Infinity) scores = Ok [e] /\
    e_segment e = (-1, 1) /\
    ~ nonneg_region (e_segment e).
Proof.
  cbv zeta. split; [|split].
  - repeat constructor.
  - repeat constructor; discriminate.
  - eexists. split; [vm_compute; reflexivity|]. split; [reflexivity|].
    intros [H _]. simpl in H. apply Qle_bool_iff in H. discriminate.
Qed.

(** C5, amended: with [pad_onset = 0] and [pad_offset >= 0], every segment
    that [Binarize.__call__] returns for a grid of non-negative timestamps
    has a non-negative start and a non-negative end, and every segment that
    [merge_vad] returns for intervals with [0 <= start < end] satisfies
    [0 <= start < end] again. *)
Theorem produced_segments_nonneg :
  (forall (b : Binarize) (scores : SlidingWindowFeature) (active : Annotation),
      pad_onset b == 0 -> 0 <= pad_offset b ->
      Forall (fun t => 0 <= t) (timestamps scores) ->
      Binarize_call b scores = Ok active ->
      Forall (fun e => nonneg_region (e_segment e)) active) /\
  (forall (vad_arr : list (Q * Q))
          (pad_onset' pad_offset' min_duration_off' min_duration_on' : Q),
      pad_onset' == 0 -> 0 <= pad_offset' ->
      Forall proper_region vad_arr ->
      Forall proper_region
             (merge_vad vad_arr pad_onset' pad_offset' min_duration_off' min_duration_on')).
Proof.
  split.
  - intros b scores active Hon Hoff Htimes Hcall.
    now apply (Binarize_call_nonneg b Hon Hoff scores).
  - apply merge_vad_proper.
Qed.

Lemma produced_segments_nonneg_witness :
  Forall (fun e => nonneg_region (e_segment e))
         [mkEntry (0, 3) (TrackIdx 0) (LabelIdx 0); mkEntry (5, 6) (TrackIdx 0) (LabelIdx 0)] /\
  Forall proper_region (merge_vad [(0, 5); (5.05, 8)] 0 0.1 0.2 0).
Proof.
  destruct produced_segments_nonneg as [Hcall Hvad]. split.
  - apply (Hcall (Binarize_thresholds 0.5 None)
                 (mkGrid [0; 1; 2; 3; 4; 5; 6] [[0.9; 0.9; 0.9; 0.1; 0.1; 0.9; 0.9]] None)).
    + reflexivity.
    + discriminate.
    + repeat constructor; discriminate.
    + vm_compute. reflexivity.
  - apply Hvad.
    + reflexivity.
    + discriminate.
    + repeat constructor; try discriminate; reflexivity.
Defined.

(** ** Worked examples *)

(** Scenario 1 of the specification. *)
Example binarize_scenario :
  Binarize_call (Binarize_thresholds 0.5 None)
    (mkGrid [0; 1; 2; 3; 4; 5; 6] [[0.9; 0.9; 0.9; 0.1; 0.1; 0.9; 0.9]] None)
  = Ok [mkEntry (0, 3) (TrackIdx 0) (LabelIdx 0); mkEntry (5, 6) (TrackIdx 0) (LabelIdx 0)].
Proof. vm_compute. reflexivity. Qed.

(** Scenario 2 of the specification. *)
Example merge_vad_scenario :
  merge_vad [(0, 5); (5.05, 8)] 0 0 0.2 0 = [(0, 8)].
Proof. vm_compute. reflexivity. Qed.

(** Scenario 3 of the specification. *)
Example merge_chunks_scenario :
  merge_chunks [mkSegment 0 10 "A"; mkSegment 10 25 "B"; mkSegment 25 40 "A"] 20
  = Ok [mkChunk 0 10 [(0, 10)]; mkChunk 10 25 [(10, 25)]; mkChunk 25 40 [(25, 40)]].
Proof. vm_compute. reflexivity. Qed.

(** The buffers are not reset when a run begins (lines 230-232): a split
    can then fall on a frame from before the run, and the region set ends
    before it starts. *)
Example binarize_carryover :
  Binarize_call (Binarize_init 0.5 None 0 0 0 0 (Finite 0.5))
    (mkGrid [0; 1; 2; 3] [[0.1; 0.1; 0.9; 0.9]] None)
  = Ok [mkEntry (2, 1) (TrackIdx 0) (LabelIdx 0); mkEntry (1, 3) (TrackIdx 0) (LabelIdx 0)].
Proof. vm_compute. reflexivity. Qed.

(** A run that begins at the last frame gives a final region of no length. *)
Example binarize_last_frame :
  Binarize_call (Binarize_thresholds 0.5 None) (mkGrid [0; 1] [[0.1; 0.9]] None)
  = Ok [mkEntry (1, 1) (TrackIdx 0) (LabelIdx 0)].
Proof. vm_compute. reflexivity. Qed.

(** * Further properties *)

(** ** ChunkPacker: the shape of the chunks *)

Lemma pack_step_span (chunk_size : Q) (st : pack_state) (seg : Segment) (rest : list Segment) :
  span_inv st (seg :: rest) ->
  span_inv (pack_step chunk_size st seg) rest /\
  seg_idxs (pack_step chunk_size st seg) <> [].
Proof.
  intros [Hm Hcur]. split; [|apply pack_step_nonempty].
  unfold pack_step, close_chunk.
  destruct (Qgtb (end_ seg - curr_start st) chunk_size) eqn:Hlong;
    destruct (Qgtb (curr_end st - curr_start st) 0) eqn:Hsome;
    unfold span_inv, extend_chunk; cbn [andb curr_start curr_end seg_idxs merged_segments].
  - apply Qgtb_true in Hsome.
    destruct (seg_idxs st) as [|p l] eqn:Hidx; [destruct Hcur; lra|].
    split.
    + apply Forall_app. split; [exact Hm|]. constructor; [|constructor].
      unfold chunk_spans. cbn [c_segments c_start c_end]. exact Hcur.
    + simpl. split; reflexivity.
  - destruct (seg_idxs st) as [|p l] eqn:Hidx.
    + split; [exact Hm|]. simpl. destruct Hcur as [_ Hcur]. split; [exact Hcur|reflexivity].
    + split; [exact Hm|]. destruct Hcur as [Hs _]. cbn [app]. split; [exact Hs|].
      now rewrite last_last.
  - destruct (seg_idxs st) as [|p l] eqn:Hidx.
    + split; [exact Hm|]. simpl. destruct Hcur as [_ Hcur]. split; [exact Hcur|reflexivity].
    + split; [exact Hm|]. destruct Hcur as [Hs _]. cbn [app]. split; [exact Hs|].
      now rewrite last_last.
  - destruct (seg_idxs st) as [|p l] eqn:Hidx.
    + split; [exact Hm|]. simpl. destruct Hcur as [_ Hcur]. split; [exact Hcur|reflexivity].
    + split; [exact Hm|]. destruct Hcur as [Hs _]. cbn [app]. split; [exact Hs|].
      now rewrite last_last.
Qed.

Lemma pack_loop_span (chunk_size : Q) (segs : list Segment) :
  forall st, span_inv st segs ->
             span_inv (fold_left (pack_step chunk_size) segs st) [].
Proof.
  induction segs as [|seg segs IH]; intros st Hinv; simpl; [|apply IH].
  - destruct Hinv as [Hm Hcur]. split; [exact Hm|].
    destruct (seg_idxs st); [|exact Hcur]. tauto.
  - now apply pack_step_span.
Qed.

Lemma flatten_length_le (chunks : list chunk) :
  Forall (fun c => c_segments c <> []) chunks ->
  (length chunks <= length (flatten_segments chunks))%nat.
Proof.
  unfold flatten_segments.
  induction 1 as [|c chunks Hc Hcs IH]; simpl; [lia|].
  rewrite length_app. destruct (c_segments c); [congruence|simpl; lia].
Qed.

Lemma chunk_spans_nonempty (c : chunk) : chunk_spans c -> c_segments c <> [].
Proof. unfold chunk_spans. now destruct (c_segments c). Qed.

(** X1: when the first segment does not start before time 0, each chunk
    returned by [merge_chunks] holds at least one segment, starts at the
    start of its first segment and ends at the end of its last one, and there
    are no more chunks than segments. *)
Theorem merge_chunks_spans (segs : list Segment) (chunk_size : Q) :
  0 < chunk_size ->
  (exists first rest, segs = first :: rest /\ 0 <= start first) ->
  exists chunks,
    merge_chunks segs chunk_size = Ok chunks /\
    Forall chunk_spans chunks /\
    (length chunks <= length segs)%nat.
Proof.
  intros Hpos (first & rest & E & Hfirst).
  assert (Hne : segs <> []) by (subst; discriminate).
  destruct (merge_chunks_returns segs chunk_size Hne Hpos) as (first' & rest' & E' & Hrun).
  assert (first' = first) by congruence. subst first'.
  eexists. split; [exact Hrun|].
  assert (Hinit : span_inv (pack_init first) segs).
  { unfold span_inv, pack_init; simpl. split; [constructor|].
    split; [lra|]. now rewrite E. }
  pose proof (pack_loop_span chunk_size segs _ Hinit) as [Hm Hcur].
  pose proof (pack_loop_nonempty chunk_size segs (pack_init first) (or_introl Hne)) as Hlast.
  set (st := fold_left (pack_step chunk_size) segs (pack_init first)) in *.
  assert (Hall : Forall chunk_spans (pack_final st)).
  { unfold pack_final. apply Forall_app. split; [exact Hm|].
    constructor; [|constructor]. unfold chunk_spans. cbn [c_segments c_start c_end].
    destruct (seg_idxs st); [congruence|exact Hcur]. }
  split; [exact Hall|].
  replace (length segs) with (length (flatten_segments (pack_final st))).
  - apply flatten_length_le. eapply Forall_impl; [|exact Hall].
    apply chunk_spans_nonempty.
  - unfold st. rewrite pack_loop_flatten.
    unfold pack_final, pack_init. simpl. now rewrite length_map.
Qed.

Lemma merge_chunks_spans_witness :
  exists chunks,
    merge_chunks [mkSegment 0 8 "A"; mkSegment 9 15 "B"; mkSegment 18 40 "A"] 20
    = Ok chunks /\
    Forall chunk_spans chunks /\ (length chunks <= 3)%nat.
Proof.
  apply (merge_chunks_spans
           [mkSegment 0 8 "A"; mkSegment 9 15 "B"; mkSegment 18 40 "A"] 20).
  - reflexivity.
  - eexists. eexists. split; [reflexivity|]. discriminate.
Defined.

Lemma pack_loop_fits (chunk_size : Q) (segs : list Segment) :
  forall st,
    Forall (fun seg => end_ seg - curr_start st <= chunk_size) segs ->
    fold_left (pack_step chunk_size) segs st
    = {| curr_start := curr_start st;
         curr_end := last (map end_ segs) (curr_end st);
         seg_idxs := seg_idxs st ++ map seg_pair segs;
         speaker_idxs := speaker_idxs st ++ map speaker segs;
         merged_segments := merged_segments st |}.
Proof.
  induction segs as [|seg segs IH]; intros st Hfit.
  - destruct st. simpl. now rewrite !app_nil_r.
  - apply Forall_cons_iff in Hfit. destruct Hfit as [Hseg Hfit].
    apply Qgtb_false in Hseg.
    assert (Hstep : pack_step chunk_size st seg = extend_chunk st seg).
    { unfold pack_step, close_chunk. now rewrite Hseg. }
    cbn [fold_left]. rewrite Hstep, IH by exact Hfit.
    cbn [map]. rewrite last_cons. unfold extend_chunk, seg_pair.
    cbn [curr_start curr_end seg_idxs speaker_idxs merged_segments].
    now rewrite <- !app_assoc.
Qed.

(** X2: when every segment ends within [chunk_size] of the start of the
    first one, [merge_chunks] returns a single chunk: it starts with the
    first segment, ends with the last one and holds all of them. *)
Theorem merge_chunks_single (first : Segment) (rest : list Segment) (chunk_size : Q) :
  0 < chunk_size ->
  Forall (fun seg => end_ seg - start first <= chunk_size) (first :: rest) ->
  merge_chunks (first :: rest) chunk_size
  = Ok [ {| c_start := start first;
            c_end := last (map end_ rest) (end_ first);
            c_segments := map seg_pair (first :: rest) |} ].
Proof.
  intros Hpos Hfit. unfold merge_chunks.
  apply Qgtb_true in Hpos. rewrite Hpos. cbn [negb].
  rewrite (pack_loop_fits chunk_size (first :: rest) (pack_init first) Hfit).
  unfold pack_final, pack_init.
  cbn [merged_segments curr_start curr_end seg_idxs app map]. now rewrite last_cons.
Qed.

Lemma merge_chunks_single_witness :
  merge_chunks [mkSegment 2 8 "A"; mkSegment 9 15 "B"; mkSegment 18 30 "A"] 30
  = Ok [mkChunk 2 30 [(2, 8); (9, 15); (18, 30)]].
Proof.
  apply (merge_chunks_single (mkSegment 2 8 "A")
           [mkSegment 9 15 "B"; mkSegment 18 30 "A"] 30).
  - reflexivity.
  - repeat constructor; discriminate.
Defined.

Lemma pairs_snoc {A : Type} (R : A -> A -> Prop) (l : list A) (x : A) :
  ForallOrdPairs R l -> Forall (fun a => R a x) l -> ForallOrdPairs R (l ++ [x]).
Proof.
  induction 1 as [|a l Ha Hl IH]; intros Hx; simpl.
  - constructor; constructor.
  - apply Forall_cons_iff in Hx. destruct Hx as [Hax Hx].
    constructor; [|now apply IH].
    apply Forall_app. split; [exact Ha|]. now constructor.
Qed.

Lemma pack_step_order (chunk_size : Q) (st : pack_state) (seg : Segment) (rest : list Segment) :
  start seg <= end_ seg ->
  Forall (fun s => end_ seg <= start s) rest ->
  order_inv st (seg :: rest) ->
  order_inv (pack_step chunk_size st seg) rest.
Proof.
  intros Hwf Hafter (Hord & Hpos & Hbefore & Hcs & Hcur).
  apply Forall_cons_iff in Hcs. destruct Hcs as [Hseg Hrest].
  assert (Hnext : Forall (fun s => start seg <= start s) rest).
  { eapply Forall_impl; [|exact Hafter]. intros s Hs. cbv beta in Hs. lra. }
  unfold pack_step, close_chunk.
  destruct (Qgtb (end_ seg - curr_start st) chunk_size
            && Qgtb (curr_end st - curr_start st) 0) eqn:Hclose;
    unfold order_inv, extend_chunk; cbn [curr_start curr_end seg_idxs merged_segments].
  - apply andb_true_iff in Hclose. destruct Hclose as [_ Hsome].
    apply Qgtb_true in Hsome.
    destruct Hcur as [[_ Hz]|(Hne & Hle & Hend)]; [lra|].
    apply Forall_cons_iff in Hend. destruct Hend as [Hend _].
    split; [|split; [|split; [|split]]].
    + apply pairs_snoc; [exact Hord|exact Hbefore].
    + apply Forall_app. split; [exact Hpos|]. constructor; [exact Hle|constructor].
    + apply Forall_app. split.
      * eapply Forall_impl; [|exact Hbefore]. intros c Hc. cbv beta in Hc. lra.
      * constructor; [exact Hend|constructor].
    + exact Hnext.
    + right. split; [discriminate|]. split; [exact Hwf|exact Hafter].
  - split; [exact Hord|]. split; [exact Hpos|]. split; [exact Hbefore|].
    split; [exact Hrest|].
    right. split; [now destruct (seg_idxs st)|]. split; [lra|exact Hafter].
Qed.

Lemma pack_loop_order (chunk_size : Q) (segs : list Segment) :
  forall st,
    Forall (fun s => start s <= end_ s) segs ->
    non_overlapping segs ->
    order_inv st segs ->
    order_inv (fold_left (pack_step chunk_size) segs st) [].
Proof.
  induction segs as [|seg segs IH]; intros st Hwf Hno Hinv; simpl; [exact Hinv|].
  apply Forall_cons_iff in Hwf. destruct Hwf as [Hseg Hwf].
  apply StronglySorted_inv in Hno. destruct Hno as [Hno Hhd].
  apply IH; [exact Hwf|exact Hno|]. now apply pack_step_order.
Qed.

(** X3: when the segments are well formed, none starts before an earlier
    one has ended and the first does not start before time 0, the chunks
    returned by [merge_chunks] are in time order and do not overlap: each
    ends at or before the start of every later one, and none ends before it
    starts. *)
Theorem merge_chunks_ordered (segs : list Segment) (chunk_size : Q) :
  0 < chunk_size ->
  (exists first rest, segs = first :: rest /\ 0 <= start first) ->
  Forall well_formed segs ->
  non_overlapping segs ->
  exists chunks,
    merge_chunks segs chunk_size = Ok chunks /\
    ForallOrdPairs (fun c d => c_end c <= c_start d) chunks /\
    Forall (fun c => c_start c <= c_end c) chunks.
Proof.
  intros Hpos (first & rest & E & Hfirst) Hwf Hno.
  assert (Hne : segs <> []) by (subst; discriminate).
  destruct (merge_chunks_returns segs chunk_size Hne Hpos) as (first' & rest' & E' & Hrun).
  assert (first' = first) by congruence. subst first'.
  eexists. split; [exact Hrun|].
  assert (Hwf' : Forall (fun s => start s <= end_ s) segs).
  { eapply Forall_impl; [|exact Hwf]. unfold well_formed. intros s Hs. lra. }
  assert (Hinit : order_inv (pack_init first) segs).
  { unfold order_inv, pack_init; simpl.
    split; [constructor|]. split; [constructor|]. split; [constructor|]. split.
    - subst segs. constructor; [apply Qle_refl|].
      apply StronglySorted_inv in Hno. destruct Hno as [_ Hhd].
      apply Forall_inv in Hwf'.
      eapply Forall_impl; [|exact Hhd]. intros s Hs. cbv beta in Hs. lra.
    - left. split; [reflexivity|lra]. }
  pose proof (pack_loop_order chunk_size segs _ Hwf' Hno Hinit)
    as (Hord & Hposd & Hbefore & _ & Hcur).
  pose proof (pack_loop_nonempty chunk_size segs (pack_init first) (or_introl Hne)) as Hlast.
  set (st := fold_left (pack_step chunk_size) segs (pack_init first)) in *.
  unfold pack_final. split.
  - apply pairs_snoc; [exact Hord|exact Hbefore].
  - apply Forall_app. split; [exact Hposd|].
    constructor; [|constructor]. cbn [c_start c_end].
    destruct Hcur as [[Hnil _]|(_ & Hle & _)]; [congruence|exact Hle].
Qed.

Lemma merge_chunks_ordered_witness :
  exists chunks,
    merge_chunks [mkSegment 0 8 "A"; mkSegment 9 15 "B"; mkSegment 18 40 "A"] 20
    = Ok chunks /\
    ForallOrdPairs (fun c d => c_end c <= c_start d) chunks /\
    Forall (fun c => c_start c <= c_end c) chunks.
Proof.
  apply (merge_chunks_ordered
           [mkSegment 0 8 "A"; mkSegment 9 15 "B"; mkSegment 18 40 "A"] 20).
  - reflexivity.
  - eexists. eexists. split; [reflexivity|]. discriminate.
  - repeat constructor.
  - repeat constructor; discriminate.
Defined.

(** ** Binarize: what the pass over the grid raises *)

(** X4: on a grid of at least two frames, whose columns have one score per
    frame and whose labels, if any, name every track, [Binarize.__call__]
    raises nothing but the configuration error, and that only when the merge
    is enabled with a finite [max_duration]; otherwise it returns.  In
    particular [numpy.argmin] is never given an empty buffer and no index is
    out of range. *)
Theorem Binarize_call_raises (b : Binarize) (scores : SlidingWindowFeature) :
  (2 <= length (timestamps scores))%nat ->
  grid_shaped scores -> labels_cover scores ->
  (forall e, Binarize_call b scores = Raise e ->
             e = NotImplementedError /\
             merge_enabled (pad_onset b) (pad_offset b) (min_duration_off b) = true /\
             is_finite (max_duration b) = true) /\
  (merge_enabled (pad_onset b) (pad_offset b) (min_duration_off b) = false \/
   max_duration b = Infinity ->
   exists active, Binarize_call b scores = Ok active).
Proof.
  intros Hframes Hshape Hnames.
  destruct (binarize_raw_total b scores Hframes Hshape Hnames) as [raw Hraw].
  unfold Binarize_call. rewrite Hraw. cbn [bind].
  destruct (merge_enabled _ _ _); [destruct (is_finite (max_duration b)) eqn:Hfin|];
    cbn [bind]; split.
  - intros e [= <-]. auto.
  - intros [H|H]; [discriminate|]. rewrite H in Hfin. discriminate.
  - intros e H. discriminate.
  - intros _. eauto.
  - intros e H. discriminate.
  - intros _. eauto.
Qed.

Lemma Binarize_call_raises_witness :
  exists active,
    Binarize_call (Binarize_init 0.5 None 0 0 0 0 (Finite 1))
      (mkGrid [0; 1; 2; 3] [[0.9; 0.8; 0.9; 0.9]; [0.1; 0.9; 0.2; 0.9]] None)
    = Ok active.
Proof.
  apply (Binarize_call_raises (Binarize_init 0.5 None 0 0 0 0 (Finite 1))
           (mkGrid [0; 1; 2; 3] [[0.9; 0.8; 0.9; 0.9]; [0.1; 0.9; 0.2; 0.9]] None)).
  - simpl. lia.
  - repeat constructor.
  - exact I.
  - left. reflexivity.
Defined.

(** ** Binarize: tracks that never switch *)

Lemma combine_snd_Forall (P : Q -> Prop) (times : list Q) :
  forall ys, Forall P ys -> Forall (fun f : Q * Q => P (snd f)) (combine times ys).
Proof.
  induction times as [|t times IH]; intros [|y ys] H; simpl; try constructor.
  - now apply Forall_inv in H.
  - apply IH. now apply Forall_inv_tail in H.
Qed.

Lemma binarize_loop_silent (b : Binarize) (frames : list (Q * Q)) :
  forall st,
    is_active st = false ->
    Forall (fun f => snd f <= onset b) frames ->
    exists st',
      binarize_loop b frames st = Ok st' /\
      is_active st' = false /\ emitted st' = emitted st.
Proof.
  induction frames as [|[t y] frames IH]; intros st Hst Hf.
  - exists st. auto.
  - apply Forall_cons_iff in Hf. destruct Hf as [Hy Hf]. cbn [snd] in Hy.
    apply Qgtb_false in Hy.
    cbn [binarize_loop]. unfold binarize_step. cbn [bind_t is_active].
    rewrite Hst, Hy. cbn [bind].
    destruct (IH (push_frame (bind_t st t) t y)) as (st' & Hloop & Hact & Hem);
      [exact Hst|exact Hf|].
    exists st'. auto.
Qed.

Lemma binarize_track_silent (b : Binarize) (times k_scores : list Q) (t : option Q) :
  times <> [] -> length k_scores = length times ->
  Forall (fun y => y <= onset b) k_scores ->
  exists t', binarize_track b times t k_scores = Ok ([], t').
Proof.
  intros Hne Hlen Hall.
  destruct times as [|t0 times]; [congruence|].
  destruct k_scores as [|y0 ys]; [discriminate|].
  apply Forall_cons_iff in Hall. destruct Hall as [Hy0 Hys].
  unfold binarize_track. cbn [index nth_error bind tl].
  destruct (binarize_loop_silent b (combine times ys) (track_init b t0 y0 t))
    as (st & Hloop & Hact & Hem).
  - simpl. now apply Qgtb_false.
  - exact (combine_snd_Forall (fun y => y <= onset b) times ys Hys).
  - rewrite Hloop. cbn [bind]. unfold final_region. rewrite Hact, Hem.
    cbn [bind]. eauto.
Qed.

Lemma binarize_tracks_silent (b : Binarize) (scores : SlidingWindowFeature) :
  timestamps scores <> [] ->
  forall columns k t active,
    Forall (fun k_scores => length k_scores = length (timestamps scores)) columns ->
    Forall (Forall (fun y => y <= onset b)) columns ->
    match labels scores with
    | None => True
    | Some names => (k + length columns <= length names)%nat
    end ->
    binarize_tracks b scores k columns t active = Ok active.
Proof.
  intros Hne.
  induction columns as [|k_scores columns IH]; intros k t active Hshape Hall Hnames;
    [reflexivity|].
  apply Forall_cons_iff in Hshape. destruct Hshape as [Hcol Hshape].
  apply Forall_cons_iff in Hall. destruct Hall as [Hk Hall].
  cbn [binarize_tracks].
  assert (Hlabel : exists l, track_label scores k = Ok l).
  { unfold track_label. destruct (labels scores) as [names|]; [|eauto].
    unfold index. destruct (nth_error names k) eqn:E; [simpl; eauto|].
    apply nth_error_None in E. simpl in Hnames. lia. }
  destruct Hlabel as [l ->]. cbn [bind].
  destruct (binarize_track_silent b (timestamps scores) k_scores t Hne Hcol Hk) as [t' ->].
  cbn [bind fst snd set_regions fold_left]. apply IH; [exact Hshape|exact Hall|].
  destruct (labels scores); [simpl in Hnames; lia|exact I].
Qed.

(** X5: on a grid with at least one frame (a one-frame grid included),
    whose columns have one score per frame and whose labels, if any, name
    every track, when no score is above [onset] and the configuration is
    accepted (the merge disabled, or [max_duration] infinite),
    [Binarize.__call__] returns the empty annotation. *)
Theorem Binarize_call_silent (b : Binarize) (scores : SlidingWindowFeature) :
  timestamps scores <> [] ->
  grid_shaped scores -> labels_cover scores ->
  Forall (Forall (fun y => y <= onset b)) (data_T scores) ->
  merge_enabled (pad_onset b) (pad_offset b) (min_duration_off b) = false \/
  max_duration b = Infinity ->
  Binarize_call b scores = Ok [].
Proof.
  intros Hne Hshape Hnames Hall Hconf.
  unfold Binarize_call, binarize_raw.
  rewrite (binarize_tracks_silent b scores Hne (data_T scores) 0 None [] Hshape Hall).
  2:{ unfold labels_cover in Hnames. now destruct (labels scores). }
  cbn [bind].
  assert (Hdrop : forall m, drop_short m [] = []).
  { intros m. unfold drop_short. now destruct (Qgtb m 0). }
  destruct (merge_enabled _ _ _).
  - destruct Hconf as [H|H]; [discriminate|]. rewrite H. cbn [is_finite bind].
    change (annotation_support (min_duration_off b) []) with (@nil entry).
    now rewrite Hdrop.
  - cbn [bind]. now rewrite Hdrop.
Qed.

Lemma Binarize_call_silent_witness :
  Binarize_call (Binarize_init 0.5 None 0 0 0 0 (Finite 1))
    (mkGrid [0; 1; 2] [[0.1; 0.5; 0.2]; [0.3; 0.3; 0.3]] None) = Ok [].
Proof.
  apply (Binarize_call_silent (Binarize_init 0.5 None 0 0 0 0 (Finite 1))
           (mkGrid [0; 1; 2] [[0.1; 0.5; 0.2]; [0.3; 0.3; 0.3]] None)).
  - discriminate.
  - repeat constructor.
  - exact I.
  - repeat constructor; discriminate.
  - left. reflexivity.
Defined.

Lemma binarize_loop_active (b : Binarize) (frames : list (Q * Q)) :
  max_duration b = Infinity ->
  forall st,
    is_active st = true ->
    Forall (fun f => offset b <= snd f) frames ->
    exists st',
      binarize_loop b frames st = Ok st' /\
      is_active st' = true /\ st_start st' = st_start st /\ emitted st' = emitted st.
Proof.
  intros Hinf.
  induction frames as [|[t y] frames IH]; intros st Hst Hf.
  - exists st. auto.
  - apply Forall_cons_iff in Hf. destruct Hf as [Hy Hf]. cbn [snd] in Hy.
    apply Qltb_false in Hy.
    cbn [binarize_loop]. unfold binarize_step. cbn [bind_t is_active].
    rewrite Hst, Hinf. cbn [exceeds]. rewrite Hy. cbn [bind].
    destruct (IH (push_frame (bind_t st t) t y)) as (st' & Hloop & Hact & Hstart & Hem);
      [exact Hst|exact Hf|].
    exists st'. auto.
Qed.

(** X6: with an infinite [max_duration], a track whose first score is
    above [onset] and whose later scores are never below [offset] gives
    exactly one region, from the first timestamp less [pad_onset] to the last
    timestamp plus [pad_offset]. *)
Theorem binarize_track_one_run (b : Binarize) (t0 t1 y0 y1 : Q) (times k_scores : list Q)
  (t : option Q) :
  max_duration b = Infinity ->
  length times = length k_scores ->
  onset b < y0 ->
  Forall (fun y => offset b <= y) (y1 :: k_scores) ->
  binarize_track b (t0 :: t1 :: times) t (y0 :: y1 :: k_scores)
  = Ok ([(t0 - pad_onset b, last times t1 + pad_offset b)], Some (last times t1)).
Proof.
  intros Hinf Hlen Hy0 Hys.
  destruct (binarize_track_final b t0 t1 y0 y1 times k_scores t Hlen) as (st & Hloop & ->).
  destruct (binarize_loop_active b (combine (t1 :: times) (y1 :: k_scores)) Hinf
              (track_init b t0 y0 t)) as (st' & Hloop' & Hact & Hstart & Hem).
  - simpl. now apply Qgtb_true.
  - exact (combine_snd_Forall (fun y => offset b <= y) (t1 :: times) (y1 :: k_scores) Hys).
  - rewrite Hloop in Hloop'. injection Hloop' as <-.
    rewrite Hact, Hstart, Hem. reflexivity.
Qed.

Lemma binarize_track_one_run_witness :
  binarize_track (Binarize_init 0.5 (Some 0.3) 0 0 0.1 0.2 Infinity)
                 [0; 1; 2; 3] None [0.9; 0.4; 0.3; 0.8]
  = Ok ([(0 - 0.1, 3 + 0.2)], Some 3).
Proof.
  apply (binarize_track_one_run (Binarize_init 0.5 (Some 0.3) 0 0 0.1 0.2 Infinity)
           0 1 0.9 0.4 [2; 3] [0.3; 0.8] None).
  - reflexivity.
  - reflexivity.
  - reflexivity.
  - repeat constructor; discriminate.
Defined.

(** ** Binarize: the regions of a track when no run is split *)

Lemma push_frame_run (b : Binarize) (st : track_state) (t y now : Q) :
  run_inv b st now -> run_inv b (push_frame st t y) now.
Proof. intros H. exact H. Qed.

Lemma binarize_step_run (b : Binarize) (st : track_state) (t y now : Q) :
  max_duration b = Infinity ->
  run_inv b st now -> now < t ->
  exists st',
    binarize_step b st (t, y) = Ok st' /\ run_inv b st' t /\ loop_t st' = Some t.
Proof.
  intros Hinf (Hnow & Hends & Hstrict & Hord) Ht.
  assert (Hkeep : run_inv b (bind_t st t) t).
  { unfold run_inv. cbn [bind_t st_start emitted].
    split; [lra|]. split; [exact Hends|]. split; [exact Hstrict|exact Hord]. }
  unfold binarize_step. cbn [bind_t is_active st_start]. rewrite Hinf. cbn [exceeds].
  destruct (is_active st).
  - destruct (Qltb y (offset b)); cbn [bind].
    + eexists. split; [reflexivity|]. split; [|reflexivity].
      apply push_frame_run. unfold run_inv, end_run, stamp_start, stamp_end.
      cbn [st_start emitted bind_t].
      split; [apply Qle_refl|]. split; [|split].
      * apply Forall_app. split.
        -- eapply Forall_impl; [|exact Hends]. intros r Hr.
           unfold stamp_end in Hr. lra.
        -- constructor; [cbn [snd]; lra|constructor].
      * apply Forall_app. split; [exact Hstrict|].
        constructor; [cbn [fst snd]; lra|constructor].
      * apply pairs_snoc; [exact Hord|].
        eapply Forall_impl; [|exact Hends]. intros r Hr.
        unfold stamp_end in Hr. cbn [fst]. lra.
    + eexists. split; [reflexivity|]. split; [|reflexivity].
      now apply push_frame_run.
  - destruct (Qgtb y (onset b)); cbn [bind].
    + eexists. split; [reflexivity|]. split; [|reflexivity].
      apply push_frame_run. unfold run_inv, begin_run.
      cbn [st_start emitted bind_t].
      split; [apply Qle_refl|]. split; [|split; [exact Hstrict|exact Hord]].
      eapply Forall_impl; [|exact Hends]. intros r Hr. cbv beta in Hr. lra.
    + eexists. split; [reflexivity|]. split; [|reflexivity].
      now apply push_frame_run.
Qed.

Lemma binarize_loop_run (b : Binarize) (frames : list (Q * Q)) :
  max_duration b = Infinity ->
  forall st now,
    run_inv b st now ->
    StronglySorted Qlt (now :: map fst frames) ->
    exists st',
      binarize_loop b frames st = Ok st' /\
      run_inv b st' (last (map fst frames) now).
Proof.
  intros Hinf.
  induction frames as [|[t y] frames IH]; intros st now Hinv Hsorted.
  - exists st. split; [reflexivity|exact Hinv].
  - cbn [map fst] in Hsorted.
    apply StronglySorted_inv in Hsorted. destruct Hsorted as [Hsorted Hnow].
    apply Forall_inv in Hnow.
    destruct (binarize_step_run b st t y now Hinf Hinv Hnow) as (st1 & Hstep & Hinv1 & _).
    destruct (IH st1 t Hinv1 Hsorted) as (st' & Hloop & Hinv').
    exists st'. cbn [binarize_loop]. rewrite Hstep. cbn [bind].
    split; [exact Hloop|]. cbn [map fst]. now rewrite last_cons.
Qed.

Lemma map_fst_combine {A B : Type} (l : list A) :
  forall l' : list B, length l = length l' -> map fst (combine l l') = l.
Proof.
  induction l as [|x l IH]; intros [|y l'] H; simpl in *; try discriminate; [reflexivity|].
  injection H as H. now rewrite IH.
Qed.

Lemma removelast_Forall {A : Type} (P : A -> Prop) (l : list A) :
  Forall P l -> Forall P (removelast l).
Proof.
  induction 1 as [|x l Hx Hl IH]; [constructor|].
  simpl. destruct l; [constructor|]. now constructor.
Qed.

(** X7: with an infinite [max_duration] and strictly increasing
    timestamps, the regions a track gives on a grid of at least two frames
    follow one another without overlap (before padding, each ends at or
    before the start of every later one); none ends before it starts, and
    each but possibly the last starts strictly before it ends. *)
Theorem binarize_track_ordered (b : Binarize) (t0 t1 y0 y1 : Q) (times k_scores : list Q)
  (t : option Q) :
  max_duration b = Infinity ->
  length times = length k_scores ->
  StronglySorted Qlt (t0 :: t1 :: times) ->
  exists regions,
    binarize_track b (t0 :: t1 :: times) t (y0 :: y1 :: k_scores)
    = Ok (regions, Some (last times t1)) /\
    ForallOrdPairs (fun r1 r2 => stamp_end b r1 <= stamp_start b r2) regions /\
    Forall (fun r => stamp_start b r <= stamp_end b r) regions /\
    Forall (fun r => stamp_start b r < stamp_end b r) (removelast regions).
Proof.
  intros Hinf Hlen Hsorted.
  destruct (binarize_track_final b t0 t1 y0 y1 times k_scores t Hlen) as (st & Hloop & ->).
  destruct (binarize_loop_run b (combine (t1 :: times) (y1 :: k_scores)) Hinf
              (track_init b t0 y0 t) t0) as (st' & Hloop' & Hinv).
  - unfold run_inv. cbn [track_init st_start emitted].
    split; [apply Qle_refl|]. repeat split; constructor.
  - rewrite map_fst_combine by (simpl; now rewrite Hlen). exact Hsorted.
  - rewrite Hloop in Hloop'. injection Hloop' as <-.
    rewrite map_fst_combine in Hinv by (simpl; now rewrite Hlen).
    rewrite last_cons in Hinv.
    destruct Hinv as (Hnow & Hends & Hstrict & Hord).
    assert (Hweak : Forall (fun r => stamp_start b r <= stamp_end b r) (emitted st)).
    { eapply Forall_impl; [|exact Hstrict]. intros r Hr. cbv beta in Hr. lra. }
    eexists. split; [reflexivity|].
    destruct (is_active st).
    + split; [|split].
      * apply pairs_snoc; [exact Hord|].
        eapply Forall_impl; [|exact Hends]. intros r Hr.
        unfold stamp_start, stamp_end in *. cbn [fst]. lra.
      * apply Forall_app. split; [exact Hweak|].
        constructor; [|constructor]. unfold stamp_start, stamp_end. cbn [fst snd]. lra.
      * rewrite removelast_last. exact Hstrict.
    + split; [exact Hord|]. split; [exact Hweak|].
      now apply removelast_Forall.
Qed.

Lemma binarize_track_ordered_witness :
  let b := Binarize_init 0.5 None 0 0 0.1 0.1 Infinity in
  exists regions,
    binarize_track b [0; 1; 2; 3; 4] None [0.9; 0.1; 0.2; 0.9; 0.9]
    = Ok (regions, Some 4) /\
    ForallOrdPairs (fun r1 r2 => stamp_end b r1 <= stamp_start b r2) regions /\
    Forall (fun r => stamp_start b r <= stamp_end b r) regions /\
    Forall (fun r => stamp_start b r < stamp_end b r) (removelast regions).
Proof.
  cbv zeta.
  apply (binarize_track_ordered (Binarize_init 0.5 None 0 0 0.1 0.1 Infinity)
           0 1 0.9 0.1 [2; 3; 4] [0.2; 0.9; 0.9] None).
  - reflexivity.
  - reflexivity.
  - repeat constructor.
Defined.

(** ** The short-segment filter *)

Lemma drop_short_long (min_duration_on' : Q) (active : Annotation) :
  0 < min_duration_on' ->
  Forall (fun e => min_duration_on' <= seg_duration (e_segment e))
         (drop_short min_duration_on' active).
Proof.
  intros Hpos. unfold drop_short. apply Qgtb_true in Hpos. rewrite Hpos.
  apply Forall_forall. intros e He. apply filter_In in He. destruct He as [_ He].
  apply negb_true_iff in He. now apply Qltb_false in He.
Qed.

(** X8: when [min_duration_on > 0], no segment returned by
    [Binarize.__call__] or by [merge_vad] is shorter than [min_duration_on]. *)
Theorem outputs_not_short :
  (forall (b : Binarize) (scores : SlidingWindowFeature) (active : Annotation),
      0 < min_duration_on b ->
      Binarize_call b scores = Ok active ->
      Forall (fun e => min_duration_on b <= seg_duration (e_segment e)) active) /\
  (forall (vad_arr : list (Q * Q))
          (pad_onset' pad_offset' min_duration_off' min_duration_on' : Q),
      0 < min_duration_on' ->
      Forall (fun s => min_duration_on' <= seg_duration s)
             (merge_vad vad_arr pad_onset' pad_offset' min_duration_off' min_duration_on')).
Proof.
  split.
  - intros b scores active Hpos. unfold Binarize_call.
    destruct (binarize_raw b scores) as [raw|e]; cbn [bind]; [|discriminate].
    destruct (merge_enabled _ _ _);
      [destruct (is_finite (max_duration b)); cbn [bind]; [discriminate|]|cbn [bind]];
      intros [= <-]; now apply drop_short_long.
  - intros vad_arr pon poff mdoff mdon Hpos. unfold merge_vad, itertracks.
    apply (proj2 (Forall_map e_segment (fun s => mdon <= seg_duration s) _)).
    apply sort_by_Forall. now apply drop_short_long.
Qed.

Lemma outputs_not_short_witness :
  Forall (fun e => 2 <= seg_duration (e_segment e))
         [mkEntry (0, 3) (TrackIdx 0) (LabelIdx 0)] /\
  Forall (fun s => 2 <= seg_duration s) (merge_vad [(0, 5); (6, 7); (9, 12)] 0 0 0 2).
Proof.
  destruct outputs_not_short as [Hcall Hvad]. split.
  - apply (Hcall (Binarize_init 0.5 None 2 0 0 0 Infinity)
                 (mkGrid [0; 1; 2; 3; 4; 5; 6] [[0.9; 0.9; 0.9; 0.1; 0.1; 0.9; 0.9]] None)).
    + reflexivity.
    + vm_compute. reflexivity.
  - apply Hvad. reflexivity.
Defined.

(** ** IntervalMerger: what becomes of the input intervals *)

Lemma annotation_set_fresh (active : Annotation) (region : Q * Q) (k : nat) (l : label) :
  tracks_below k active ->
  annotation_set active region (TrackIdx k) l = active ++ [mkEntry region (TrackIdx k) l].
Proof.
  intros Hbelow. unfold annotation_set. f_equal.
  induction Hbelow as [|e active He Ha IH]; [reflexivity|].
  simpl. rewrite IH.
  replace (same_key region (TrackIdx k) e) with false; [reflexivity|].
  unfold same_key. destruct (e_track e) as [j|n]; simpl.
  - replace (j =? k)%nat with false; [now rewrite andb_false_r|].
    symmetry. apply Nat.eqb_neq. lia.
  - now rewrite andb_false_r.
Qed.

Lemma pad_intervals_segments (pad_onset' pad_offset' : Q) (vad_arr : list (Q * Q)) :
  forall k active,
    tracks_below k active ->
    map e_segment (pad_intervals pad_onset' pad_offset' k vad_arr active)
    = map e_segment active ++ map (padded pad_onset' pad_offset') vad_arr.
Proof.
  induction vad_arr as [|vad_t vad_arr IH]; intros k active Hbelow; simpl.
  - now rewrite app_nil_r.
  - rewrite annotation_set_fresh by exact Hbelow.
    rewrite IH.
    + rewrite map_app. simpl. now rewrite <- app_assoc.
    + unfold tracks_below in *. apply Forall_app. split.
      * eapply Forall_impl; [|exact Hbelow].
        intros e. cbv beta. destruct (e_track e); [lia|auto].
      * constructor; [simpl; lia|constructor].
Qed.

Lemma insert_by_perm {A : Type} (key : A -> Q * Q) (x : A) (l : list A) :
  Permutation (insert_by key x l) (x :: l).
Proof.
  induction l as [|y l IH]; simpl; [reflexivity|].
  destruct (seg_leb (key x) (key y)); [reflexivity|].
  rewrite IH. apply perm_swap.
Qed.

Lemma sort_by_perm {A : Type} (key : A -> Q * Q) (l : list A) :
  Permutation (sort_by key l) l.
Proof.
  induction l as [|x l IH]; [reflexivity|].
  unfold sort_by in *. simpl. rewrite insert_by_perm. now constructor.
Qed.

Lemma drop_short_off (min_duration_on' : Q) (active : Annotation) :
  min_duration_on' <= 0 -> drop_short min_duration_on' active = active.
Proof.
  intros H. unfold drop_short. apply Qgtb_false in H. now rewrite H.
Qed.

(** X9: with no positive padding or collar (the merge is then skipped)
    and no positive [min_duration_on], [merge_vad] returns the padded input
    intervals, each exactly once, in some order: overlapping or repeated
    intervals are kept as they are. *)
Theorem merge_vad_keeps_all (vad_arr : list (Q * Q))
  (pad_onset' pad_offset' min_duration_off' min_duration_on' : Q) :
  pad_onset' <= 0 -> pad_offset' <= 0 -> min_duration_off' <= 0 ->
  min_duration_on' <= 0 ->
  Permutation (merge_vad vad_arr pad_onset' pad_offset' min_duration_off' min_duration_on')
              (map (padded pad_onset' pad_offset') vad_arr).
Proof.
  intros H1 H2 H3 H4. unfold merge_vad, merge_enabled, itertracks.
  apply Qgtb_false in H1, H2, H3. rewrite H1, H2, H3. cbn [orb].
  rewrite drop_short_off by exact H4.
  rewrite (Permutation_map e_segment (sort_by_perm e_segment _)).
  rewrite pad_intervals_segments by constructor. reflexivity.
Qed.

Lemma merge_vad_keeps_all_witness :
  Permutation (merge_vad [(3, 8); (0, 5); (3, 8)] 0 0 0 0)
              (map (padded 0 0) [(3, 8); (0, 5); (3, 8)]).
Proof.
  apply (merge_vad_keeps_all [(3, 8); (0, 5); (3, 8)] 0 0 0 0); discriminate.
Defined.

Lemma covers_refl (s : Q * Q) : covers s s.
Proof. split; apply Qle_refl. Qed.

Lemma covers_union_l (a b s : Q * Q) : covers a s -> covers (union a b) s.
Proof.
  unfold covers, union. cbn [fst snd]. intros [H1 H2].
  pose proof (Q.le_min_l (fst a) (fst b)). pose proof (Q.le_max_l (snd a) (snd b)).
  split; lra.
Qed.

Lemma covers_union_r (a b s : Q * Q) : covers b s -> covers (union a b) s.
Proof.
  unfold covers, union. cbn [fst snd]. intros [H1 H2].
  pose proof (Q.le_min_r (fst a) (fst b)). pose proof (Q.le_max_r (snd a) (snd b)).
  split; lra.
Qed.

Lemma support_sweep_covers (collar : Q) (rest : list (Q * Q)) :
  forall current s,
    covers current s \/ In s rest ->
    exists o, In o (support_sweep collar current rest) /\ covers o s.
Proof.
  induction rest as [|next rest IH]; intros current s Hs; simpl.
  - destruct Hs as [Hs|[]]. exists current. split; [now left|exact Hs].
  - destruct (Qltb (fst next - snd current) collar).
    + apply IH. destruct Hs as [Hs|[->|Hs]].
      * left. now apply covers_union_l.
      * left. apply covers_union_r, covers_refl.
      * now right.
    + destruct Hs as [Hs|[->|Hs]].
      * exists current. split; [now left|exact Hs].
      * destruct (IH s s (or_introl (covers_refl s))) as (o & Ho & Hc).
        exists o. split; [now right|exact Hc].
      * destruct (IH next s (or_intror Hs)) as (o & Ho & Hc).
        exists o. split; [now right|exact Hc].
Qed.

Lemma timeline_support_covers (collar : Q) (segments : list (Q * Q)) (s : Q * Q) :
  In s segments ->
  exists o, In o (timeline_support collar segments) /\ covers o s.
Proof.
  intros Hs. unfold timeline_support.
  apply (Permutation_in _ (Permutation_sym (sort_by_perm (fun x => x) segments))) in Hs.
  destruct (sort_by (fun x => x) segments) as [|first rest]; [destruct Hs|].
  apply support_sweep_covers. destruct Hs as [->|Hs]; [left; apply covers_refl|now right].
Qed.

(** X10: with no positive [min_duration_on], every input interval of
    [merge_vad], once padded, lies within an interval of the output, whether
    the merge is applied or not (the merge being the sweep the specification
    describes): merging loses no part of any interval. *)
Theorem merge_vad_covers (vad_arr : list (Q * Q))
  (pad_onset' pad_offset' min_duration_off' min_duration_on' : Q) (v : Q * Q) :
  min_duration_on' <= 0 ->
  In v vad_arr ->
  exists o,
    In o (merge_vad vad_arr pad_onset' pad_offset' min_duration_off' min_duration_on') /\
    covers o (padded pad_onset' pad_offset' v).
Proof.
  intros Hon Hv. unfold merge_vad, itertracks.
  rewrite drop_short_off by exact Hon.
  set (active := pad_intervals pad_onset' pad_offset' 0 vad_arr []).
  assert (Hin : In (padded pad_onset' pad_offset' v) (map e_segment active)).
  { unfold active. rewrite pad_intervals_segments by constructor.
    simpl. now apply in_map. }
  assert (Hsort : forall a o, In o (map e_segment a) ->
                              In o (map e_segment (sort_by e_segment a))).
  { intros a o Ho.
    apply (Permutation_in _ (Permutation_sym
             (Permutation_map e_segment (sort_by_perm e_segment a)))).
    exact Ho. }
  destruct (merge_enabled _ _ _).
  - destruct (timeline_support_covers min_duration_off' _ _ Hin) as (o & Ho & Hc).
    exists o. split; [|exact Hc]. apply Hsort.
    rewrite (annotation_support_one (LabelIdx 1)); [exact Ho|].
    apply pad_intervals_label. constructor.
  - exists (padded pad_onset' pad_offset' v). split; [now apply Hsort|apply covers_refl].
Qed.

Lemma merge_vad_covers_witness :
  exists o,
    In o (merge_vad [(0, 5); (5.05, 8); (9, 10)] 0 0.1 0.2 0) /\
    covers o (padded 0 0.1 (5.05, 8)).
Proof.
  apply (merge_vad_covers [(0, 5); (5.05, 8); (9, 10)] 0 0.1 0.2 0 (5.05, 8)).
  - discriminate.
  - right. left. reflexivity.
Defined.

(** ** The pipeline *)

Lemma non_overlapping_sorted (segs : list Segment) :
  Forall well_formed segs -> non_overlapping segs ->
  StronglySorted (fun a b => start a <= start b) segs.
Proof.
  unfold non_overlapping, well_formed. intros Hwf Hno.
  induction Hno as [|seg segs Hno IH Hhd]; [constructor|].
  apply Forall_cons_iff in Hwf. destruct Hwf as [Hseg Hwf].
  constructor; [now apply IH|].
  eapply Forall_impl; [|exact Hhd]. intros s Hs. cbv beta in Hs. lra.
Qed.

(** The contract of the packer on well-formed, ordered, disjoint segments
    from time 0 on. *)
Lemma merge_chunks_contract (first : Segment) (rest : list Segment) (chunk_size : Q) :
  0 < chunk_size ->
  0 <= start first ->
  Forall well_formed (first :: rest) ->
  non_overlapping (first :: rest) ->
  exists chunks,
    merge_chunks (first :: rest) chunk_size = Ok chunks /\
    flatten_segments chunks = map seg_pair (first :: rest) /\
    Forall (fun c => chunk_spans c /\ chunk_within chunk_size c) chunks /\
    ForallOrdPairs (fun c d => c_end c <= c_start d) chunks.
Proof.
  intros Hpos Hfirst Hwf Hno.
  set (segs := first :: rest) in *.
  assert (Hne : segs <> []) by discriminate.
  destruct (merge_chunks_returns segs chunk_size Hne Hpos) as (f & r & E & Hrun).
  assert (f = first) by (unfold segs in E; congruence). subst f.
  pose proof (non_overlapping_sorted segs Hwf Hno) as Hsorted.
  assert (Hhd : Forall (fun s => start first <= start s) segs).
  { unfold segs. constructor; [apply Qle_refl|].
    apply StronglySorted_inv in Hsorted. tauto. }
  assert (Hwf' : Forall (fun s => start s <= end_ s) segs).
  { eapply Forall_impl; [|exact Hwf]. unfold well_formed. intros s Hs. lra. }
  assert (Hspan : span_inv (pack_init first) segs).
  { unfold span_inv, pack_init; simpl. split; [constructor|]. split; [lra|reflexivity]. }
  assert (Hbound : pack_inv chunk_size (pack_init first) segs).
  { unfold pack_inv, pack_init; simpl. split; [constructor|]. split; [exact Hhd|].
    left. split; [reflexivity|lra]. }
  assert (Horder : order_inv (pack_init first) segs).
  { unfold order_inv, pack_init; simpl.
    split; [constructor|]. split; [constructor|]. split; [constructor|].
    split; [exact Hhd|]. left. split; [reflexivity|lra]. }
  apply (pack_loop_span chunk_size) in Hspan. destruct Hspan as [Hs1 Hs2].
  apply (pack_loop_inv chunk_size segs _ Hwf Hsorted) in Hbound.
  destruct Hbound as (Hb1 & _ & Hb2).
  apply (pack_loop_order chunk_size segs _ Hwf' Hno) in Horder.
  destruct Horder as (Ho1 & _ & Ho2 & _ & _).
  pose proof (pack_loop_nonempty chunk_size segs (pack_init first) (or_introl Hne)) as Hlast.
  pose proof (pack_loop_flatten chunk_size segs (pack_init first)) as Hflat.
  set (st := fold_left (pack_step chunk_size) segs (pack_init first)) in *.
  eexists. split; [exact Hrun|]. split; [exact Hflat|]. split.
  - unfold pack_final. apply Forall_app. split.
    + apply Forall_forall. intros c Hc. rewrite Forall_forall in Hs1, Hb1.
      split; [now apply Hs1|]. now apply chunk_ok_within, Hb1.
    + constructor; [|constructor]. split.
      * unfold chunk_spans. cbn [c_segments c_start c_end].
        destruct (seg_idxs st); [congruence|exact Hs2].
      * apply chunk_ok_within.
        destruct Hb2 as [[Hnil _]|(_ & _ & Hdur)]; [congruence|].
        unfold chunk_ok, duration; simpl. split; [|exact Hdur].
        destruct (seg_idxs st); [congruence|simpl; lia].
  - unfold pack_final. apply pairs_snoc; [exact Ho1|exact Ho2].
Qed.

Lemma resolve_rate_pos (file_rate : positive) (sample_rate : Z) :
  (0 <= sample_rate)%Z -> (0 < resolve_rate file_rate sample_rate)%Z.
Proof.
  intros H. unfold resolve_rate.
  destruct (sample_rate =? 0)%Z eqn:E; [lia|].
  apply Z.eqb_neq in E. lia.
Qed.

Lemma inject_Z_pos (rate : Z) : (0 < rate)%Z -> 0 < inject_Z rate.
Proof. intros H. change 0 with (inject_Z 0). now rewrite <- Zlt_Qlt. Qed.

Lemma seconds_le (rate a b : Z) :
  (0 < rate)%Z -> (a <= b)%Z -> inject_Z a / inject_Z rate <= inject_Z b / inject_Z rate.
Proof.
  intros Hr Hab. unfold Qdiv. apply Qmult_le_compat_r.
  - now rewrite <- Zle_Qle.
  - apply Qlt_le_weak, Qinv_lt_0_compat. now apply inject_Z_pos.
Qed.

Lemma seconds_lt (rate a b : Z) :
  (0 < rate)%Z -> (a < b)%Z -> inject_Z a / inject_Z rate < inject_Z b / inject_Z rate.
Proof.
  intros Hr Hab. unfold Qdiv. apply Qmult_lt_compat_r.
  - apply Qinv_lt_0_compat. now apply inject_Z_pos.
  - now rewrite <- Zlt_Qlt.
Qed.

Lemma seconds_nonneg (rate a : Z) :
  (0 < rate)%Z -> (0 <= a)%Z -> 0 <= inject_Z a / inject_Z rate.
Proof.
  intros Hr Ha. pose proof (seconds_le rate 0 a Hr Ha) as H.
  unfold Qdiv in *. rewrite Qmult_0_l in H. exact H.
Qed.

(** X11: [get_segments] on its silero branch, for a pipeline with
    [chunk_length > 0] and a sample rate that is not negative.  When the
    detector finds no speech the call raises the assertion error of
    [merge_chunks].  When it returns sample ranges from index 0 on, each with
    [start < end] and none starting before an earlier one has ended, the call
    returns chunks whose segments, flattened, are the ranges in seconds, in
    order; each chunk spans its segments and is within [chunk_length] unless
    it holds a single segment; the chunks follow one another in time. *)
Theorem get_segments_silero_chunks (chunk_length : Z) (file_rate : positive)
  (get_speech_timestamps : Z -> list speech_timestamp) (sample_rate : Z) :
  (0 < chunk_length)%Z -> (0 <= sample_rate)%Z ->
  let timestamps := get_speech_timestamps (resolve_rate file_rate sample_rate) in
  let call := get_segments_silero chunk_length file_rate get_speech_timestamps sample_rate in
  (timestamps = [] -> call = Raise AssertionError) /\
  (timestamps <> [] ->
   Forall (fun i => (0 <= sample_start i < sample_end i)%Z) timestamps ->
   StronglySorted (fun a b => (sample_end a <= sample_start b)%Z) timestamps ->
   exists chunks,
     call = Ok chunks /\
     flatten_segments chunks
     = map seg_pair (get_segments_silero_vad file_rate get_speech_timestamps sample_rate) /\
     Forall (fun c => chunk_spans c /\ chunk_within (inject_Z chunk_length) c) chunks /\
     ForallOrdPairs (fun c d => c_end c <= c_start d) chunks).
Proof.
  intros Hlen Hrate. cbv zeta.
  unfold get_segments_silero, get_segments_silero_vad.
  pose proof (resolve_rate_pos file_rate sample_rate Hrate) as Hpos.
  set (rate := resolve_rate file_rate sample_rate) in *.
  assert (Hcs : 0 < inject_Z chunk_length) by now apply inject_Z_pos.
  split.
  - intros ->. unfold merge_chunks. apply Qgtb_true in Hcs. now rewrite Hcs.
  - intros Hne Hwf Hno.
    destruct (get_speech_timestamps rate) as [|i stamps]; [congruence|].
    cbn [map]. apply merge_chunks_contract.
    + exact Hcs.
    + apply Forall_inv in Hwf. cbv beta in Hwf. unfold to_seconds. cbn [start].
      apply seconds_nonneg; [exact Hpos|lia].
    + change (Forall well_formed (map (to_seconds rate) (i :: stamps))).
      apply Forall_map. eapply Forall_impl; [|exact Hwf].
      intros j Hj. cbv beta in Hj. unfold well_formed, to_seconds. cbn [start end_].
      apply seconds_lt; [exact Hpos|lia].
    + change (non_overlapping (map (to_seconds rate) (i :: stamps))).
      unfold non_overlapping. clear Hne Hwf.
      induction Hno as [|j l Hl IH Hj]; [constructor|].
      cbn [map]. constructor; [exact IH|].
      apply Forall_map. eapply Forall_impl; [|exact Hj].
      intros k Hk. cbv beta in Hk. unfold to_seconds. cbn [start end_].
      now apply seconds_le.
Qed.

Lemma get_segments_silero_chunks_witness :
  let detector (rate : Z) :=
    [mkStamp 0 160000; mkStamp 176000 320000; mkStamp 400000 800000] in
  get_segments_silero 30 16000%positive (fun _ => []) 0 = Raise AssertionError /\
  exists chunks,
    get_segments_silero 30 16000%positive detector 0 = Ok chunks /\
    flatten_segments chunks
    = map seg_pair (get_segments_silero_vad 16000%positive detector 0) /\
    Forall (fun c => chunk_spans c /\ chunk_within (inject_Z 30) c) chunks /\
    ForallOrdPairs (fun c d => c_end c <= c_start d) chunks.
Proof.
  cbv zeta. split.
  - apply (get_segments_silero_chunks 30 16000%positive (fun _ => []) 0); [lia|lia|].
    reflexivity.
  - apply (get_segments_silero_chunks 30 16000%positive
             (fun _ => [mkStamp 0 160000; mkStamp 176000 320000; mkStamp 400000 800000]) 0).
    + lia.
    + lia.
    + discriminate.
    + repeat constructor; simpl; lia.
    + repeat constructor; simpl; lia.
Defined.

(** X12: the binarizer that [get_segments_pyannote] builds (the defaults,
    with [max_duration] set to the chunk size) never raises the configuration
    error, and merges and filters nothing: its result is that of the
    thresholding pass; on a grid of at least two frames, whose columns have
    one score per frame and whose labels, if any, name every track, it
    returns an annotation. *)
Theorem pyannote_binarize_call (chunk_size : Z) (scores : SlidingWindowFeature) :
  Binarize_call (pyannote_binarize chunk_size) scores
  = binarize_raw (pyannote_binarize chunk_size) scores /\
  ((2 <= length (timestamps scores))%nat ->
   grid_shaped scores -> labels_cover scores ->
   exists active, Binarize_call (pyannote_binarize chunk_size) scores = Ok active).
Proof.
  assert (E : Binarize_call (pyannote_binarize chunk_size) scores
              = binarize_raw (pyannote_binarize chunk_size) scores).
  { unfold Binarize_call.
    destruct (binarize_raw (pyannote_binarize chunk_size) scores); reflexivity. }
  split; [exact E|].
  intros Hframes Hshape Hnames. rewrite E. now apply binarize_raw_total.
Qed.

Lemma pyannote_binarize_call_witness :
  exists active,
    Binarize_call (pyannote_binarize 30)
      (mkGrid [0; 1; 2] [[0.9; 0.9; 0.1]] None) = Ok active.
Proof.
  apply (pyannote_binarize_call 30 (mkGrid [0; 1; 2] [[0.9; 0.9; 0.1]] None)).
  - simpl. lia.
  - repeat constructor.
  - exact I.
Defined.

(** ** Binarize: the configuration check on a grid of one frame *)

Lemma binarize_raw_single_frame (b : Binarize) (t0 y0 : Q) (columns : list (list Q)) :
  onset b < y0 ->
  binarize_raw b (mkGrid [t0] ([y0] :: columns) None) = Raise NameError.
Proof.
  intros Hact. apply Qgtb_true in Hact.
  unfold binarize_raw. cbn [data_T binarize_tracks].
  unfold track_label, binarize_track. cbn [labels timestamps index nth_error bind tl combine].
  cbn [binarize_loop bind]. unfold final_region. cbn [track_init is_active loop_t].
  rewrite Hact. reflexivity.
Qed.

Lemma binarize_raw_single_silent (b : Binarize) (t0 y0 : Q) :
  y0 <= onset b ->
  binarize_raw b (mkGrid [t0] [[y0]] None) = Ok [].
Proof.
  intros Hsilent. unfold binarize_raw.
  apply (binarize_tracks_silent b (mkGrid [t0] [[y0]] None)).
  - discriminate.
  - repeat constructor.
  - repeat constructor. exact Hsilent.
  - exact I.
Qed.

(** C6, at the input where the code parts from it: with the merge step
    enabled and a finite [max_duration], on a grid of exactly one frame the
    call raises the configuration error when the track is not active, but
    when the track is active the unbound [t] of line 238 raises first, and
    the configuration error of lines 243-245 is never reached. *)
Theorem Binarize_call_config_single_frame (b : Binarize) (t0 y_on y_off m : Q) :
  0 < pad_onset b \/ 0 < pad_offset b \/ 0 < min_duration_off b ->
  max_duration b = Finite m ->
  onset b < y_on -> y_off <= onset b ->
  Binarize_call b (mkGrid [t0] [[y_off]] None) = Raise NotImplementedError /\
  Binarize_call b (mkGrid [t0] [[y_on]] None) = Raise NameError /\
  Binarize_call b (mkGrid [t0] [[y_on]] None) <> Raise NotImplementedError.
Proof.
  intros Hmerge Hmax Hon Hoff. apply merge_enabled_true in Hmerge.
  assert (Hactive : Binarize_call b (mkGrid [t0] [[y_on]] None) = Raise NameError).
  { unfold Binarize_call. now rewrite (binarize_raw_single_frame b t0 y_on [] Hon). }
  split; [|split].
  - unfold Binarize_call.
    rewrite (binarize_raw_single_silent b t0 y_off Hoff). cbn [bind].
    rewrite Hmerge, Hmax. reflexivity.
  - exact Hactive.
  - rewrite Hactive. discriminate.
Qed.

Lemma Binarize_call_config_single_frame_witness :
  let b := Binarize_init 0.5 None 0 0 1 0 (Finite 30) in
  Binarize_call b (mkGrid [0.5] [[0.1]] None) = Raise NotImplementedError /\
  Binarize_call b (mkGrid [0.5] [[0.9]] None) = Raise NameError /\
  Binarize_call b (mkGrid [0.5] [[0.9]] None) <> Raise NotImplementedError.
Proof.
  cbv zeta.
  apply (Binarize_call_config_single_frame
           (Binarize_init 0.5 None 0 0 1 0 (Finite 30)) 0.5 0.9 0.1 30).
  - left. reflexivity.
  - reflexivity.
  - reflexivity.
  - discriminate.
Defined.
